(** * Blue-noise stippling: importance map and void-and-cluster sampler

    A shallow embedding of [stipple/importance.py] and
    [stipple/blue_noise.py], and the properties of the sampling core.

    Numbers.  A Python/NumPy float is modelled by [float]: a finite value,
    one of the two infinities, or NaN.  Finite values are rationals and
    arithmetic on them is exact: rounding, overflow of finite results and
    the sign of zero are not modelled.  The special values follow IEEE 754
    as NumPy applies it to arrays (division by zero yields an infinity or
    NaN, comparisons with NaN are false).

    Arrays.  A 2-D NumPy array is its shape and its cells in row-major
    (C) order, the order [np.argmin] and [np.unravel_index] work in.

    Library functions.  [np.exp], [np.sqrt] and the generator behind
    [np.random.seed] / [np.random.randn] are parameters of the model. *)

From Stdlib Require Import List ZArith QArith Qround Lia Lqa Bool Arith.
Import ListNotations.

Set Implicit Arguments.
Close Scope Q_scope.

(** ** Floats *)

Inductive float : Type :=
| Fin (q : Q)
| PInf
| NInf
| NaN.

Declare Scope float_scope.
Delimit Scope float_scope with float.
Bind Scope float_scope with float.

Module Float.
Local Open Scope Q_scope.

Definition is_nan (a : float) : bool :=
  match a with NaN => true | _ => false end.

Definition is_finite (a : float) : bool :=
  match a with Fin _ => true | _ => false end.

Definition of_Z (z : Z) : float := Fin (inject_Z z).

Definition zero : float := Fin 0.
Definition one : float := Fin 1.

Definition Qsgn (q : Q) : Z := Z.sgn (Qnum q).

(** The infinity of a given sign; a zero sign gives NaN (inf * 0). *)
Definition inf_of_sign (s : Z) : float :=
  match s with
  | Z0 => NaN
  | Zpos _ => PInf
  | Zneg _ => NInf
  end.

Definition sign (a : float) : Z :=
  match a with
  | Fin q => Qsgn q
  | PInf => 1%Z
  | NInf => (-1)%Z
  | NaN => 0
  end.

Definition neg (a : float) : float :=
  match a with
  | Fin q => Fin (- q)
  | PInf => NInf
  | NInf => PInf
  | NaN => NaN
  end.

Definition add (a b : float) : float :=
  match a, b with
  | NaN, _ | _, NaN => NaN
  | Fin x, Fin y => Fin (x + y)
  | PInf, NInf | NInf, PInf => NaN
  | PInf, _ | _, PInf => PInf
  | NInf, _ | _, NInf => NInf
  end.

Definition sub (a b : float) : float := add a (neg b).

Definition mul (a b : float) : float :=
  match a, b with
  | NaN, _ | _, NaN => NaN
  | Fin x, Fin y => Fin (x * y)
  | _, _ => inf_of_sign (sign a * sign b)%Z
  end.

(** Array division: no exception, x/0 is an infinity and 0/0 is NaN. *)
Definition div (a b : float) : float :=
  match a, b with
  | NaN, _ | _, NaN => NaN
  | Fin x, Fin y =>
      if Qeq_bool y 0 then inf_of_sign (Qsgn x) else Fin (x / y)
  | Fin _, _ => zero
  | _, Fin y => inf_of_sign (sign a * (if Qeq_bool y 0 then 1 else Qsgn y))%Z
  | _, _ => NaN
  end.

(** [x ** 2] *)
Definition square (a : float) : float := mul a a.

Definition leb (a b : float) : bool :=
  match a, b with
  | NaN, _ | _, NaN => false
  | NInf, _ => true
  | _, PInf => true
  | Fin x, Fin y => Qle_bool x y
  | _, _ => false
  end.

Definition geb (a b : float) : bool := leb b a.
Definition ltb (a b : float) : bool :=
  negb (is_nan a) && negb (is_nan b) && negb (leb b a).
Definition gtb (a b : float) : bool := ltb b a.

(** [np.maximum] and [np.minimum] propagate NaN. *)
Definition maximum (a b : float) : float :=
  if is_nan a then a else if is_nan b then b
  else if geb a b then a else b.

Definition minimum (a b : float) : float :=
  if is_nan a then a else if is_nan b then b
  else if leb a b then a else b.

(** Truncation toward zero, as [int(x)] on a finite float. *)
Definition Qtrunc (q : Q) : Z := Z.quot (Qnum q) (Zpos (Qden q)).

(** Equality of values: finite values are compared as rationals. *)
Definition equiv (a b : float) : Prop :=
  match a, b with
  | Fin x, Fin y => x == y
  | PInf, PInf | NInf, NInf | NaN, NaN => True
  | _, _ => False
  end.

Definition in_unit (a : float) : Prop :=
  match a with
  | Fin q => 0 <= q /\ q <= 1
  | _ => False
  end.

End Float.

Notation "a + b" := (Float.add a b) : float_scope.
Notation "a - b" := (Float.sub a b) : float_scope.
Notation "a * b" := (Float.mul a b) : float_scope.
Notation "a / b" := (Float.div a b) : float_scope.
Notation "- a" := (Float.neg a) : float_scope.
Infix "=f=" := Float.equiv (at level 70, no associativity).

(** ** Exceptions *)

Inductive exn : Type :=
| ValueError_int_of_nan          (* int(nan) *)
| OverflowError_int_of_infinity  (* int(inf) *)
| ValueError_argmin_empty        (* np.argmin of an empty array *)
| ValueError_reduce_empty.       (* .min() / .max() of an empty array *)

Inductive result (A : Type) : Type :=
| Ok (a : A)
| Raise (e : exn).

Arguments Ok {A} a.
Arguments Raise {A} e.

Definition bind {A B} (r : result A) (k : A -> result B) : result B :=
  match r with
  | Ok a => k a
  | Raise e => Raise e
  end.

Notation "x <- r ;; k" := (bind r (fun x => k))
  (at level 61, r at next level, right associativity).
Notation "' p <- r ;; k" := (bind r (fun p => k))
  (at level 61, p pattern, r at next level, right associativity).

(** [int(x)] on a Python float. *)
Definition int_of_float (a : float) : result Z :=
  match a with
  | Fin q => Ok (Float.Qtrunc q)
  | NaN => Raise ValueError_int_of_nan
  | PInf | NInf => Raise OverflowError_int_of_infinity
  end.

(** ** The NumPy functions the code calls

    [np.exp] and [np.sqrt] act on one cell; the global generator is a
    state that [np.random.seed] replaces and each normal draw advances. *)

Class NumPy : Type := {
  np_exp : float -> float;
  np_sqrt : float -> float;
  rng_state : Type;
  np_random_seed : Z -> rng_state;
  standard_normal : rng_state -> float * rng_state
}.

(** What the proofs use of these functions. *)
Record NumPyLaws `{NumPy} : Prop := {
  exp_finite : forall q, exists r, np_exp (Fin q) = Fin r;
  exp_ninf : np_exp NInf = Fin 0;
  exp_nan : np_exp NaN = NaN;
  sqrt_finite : forall q, (0 <= q)%Q -> exists r, np_sqrt (Fin q) = Fin r;
  normal_finite : forall g, Float.is_finite (fst (standard_normal g)) = true
}.

Arguments NumPyLaws : clear implicits.

(** ** Arrays *)

Record ndarray : Type := mk_ndarray {
  nrows : nat;
  ncols : nat;
  cells : list float
}.

Definition shape_ok (a : ndarray) : Prop :=
  length (cells a) = nrows a * ncols a.

Definition map_array (f : float -> float) (a : ndarray) : ndarray :=
  mk_ndarray (nrows a) (ncols a) (map f (cells a)).

Fixpoint map2 (f : float -> float -> float) (l1 l2 : list float) : list float :=
  match l1, l2 with
  | a :: l1', b :: l2' => f a b :: map2 f l1' l2'
  | _, _ => []
  end.

(** Elementwise operation on two arrays of one shape. *)
Definition zip_array (f : float -> float -> float) (a b : ndarray) : ndarray :=
  mk_ndarray (nrows a) (ncols a) (map2 f (cells a) (cells b)).

(** [np.ones((H, W))], [np.ones_like]. *)
Definition full (H W : nat) (v : float) : ndarray :=
  mk_ndarray H W (repeat v (H * W)).

Definition flat_index (a : ndarray) (y x : nat) : nat := y * ncols a + x.

(** [a[y, x]] for an index inside the array. *)
Definition get (a : ndarray) (y x : nat) : float :=
  nth (flat_index a y x) (cells a) NaN.

Fixpoint update (l : list float) (i : nat) (v : float) : list float :=
  match l, i with
  | [], _ => []
  | _ :: l', O => v :: l'
  | u :: l', S i' => u :: update l' i' v
  end.

(** [a[y, x] = v] for an index inside the array. *)
Definition set (a : ndarray) (y x : nat) (v : float) : ndarray :=
  mk_ndarray (nrows a) (ncols a) (update (cells a) (flat_index a y x) v).

(** [a[y0:y1, x0:x1]] for bounds inside the array. *)
Definition slice (a : ndarray) (y0 y1 x0 x1 : nat) : ndarray :=
  mk_ndarray (y1 - y0) (x1 - x0)
    (flat_map (fun y => map (fun x => get a y x) (seq x0 (x1 - x0)))
              (seq y0 (y1 - y0))).

(** The scan of [np.argmin] over the cells after the first: [mp] is the
    minimum so far and [min_ind] its index.  A cell replaces the minimum
    when it is not [>=] it, so the first occurrence of the minimum wins,
    and a NaN ends the scan. *)
Fixpoint argmin_scan (mp : float) (min_ind i : nat) (l : list float) : nat :=
  match l with
  | [] => min_ind
  | v :: l' =>
      if negb (Float.geb v mp)
      then if Float.is_nan v then i else argmin_scan v i (S i) l'
      else argmin_scan mp min_ind (S i) l'
  end.

(** [np.argmin(a)]: the flat index. *)
Definition argmin (a : ndarray) : result nat :=
  match cells a with
  | [] => Raise ValueError_argmin_empty
  | v :: l => Ok (if Float.is_nan v then 0%nat else argmin_scan v 0 1 l)
  end.

(** [np.unravel_index(i, shape)] for a 2-D shape. *)
Definition unravel_index (i : nat) (shape : nat * nat) : nat * nat :=
  (i / snd shape, i mod snd shape)%nat.

Definition shape (a : ndarray) : nat * nat := (nrows a, ncols a).

(** [a.min()], [a.max()], [a.sum()]. *)
Definition amin (a : ndarray) : result float :=
  match cells a with
  | [] => Raise ValueError_reduce_empty
  | v :: l => Ok (fold_left Float.minimum l v)
  end.

Definition amax (a : ndarray) : result float :=
  match cells a with
  | [] => Raise ValueError_reduce_empty
  | v :: l => Ok (fold_left Float.maximum l v)
  end.

Definition asum (a : ndarray) : float :=
  fold_left Float.add (cells a) Float.zero.

(** ** importance.py *)

Record importance_params : Type := {
  extreme_downweight : float;
  dark_threshold : float;
  light_threshold : float;
  dark_sigma : float;
  light_sigma : float;
  mid_tone_center : float;
  mid_tone_sigma : float;
  mid_tone_boost : float
}.

Definition default_params : importance_params := {|
  extreme_downweight := Fin (3 # 10);
  dark_threshold := Fin (2 # 10);
  light_threshold := Fin (8 # 10);
  dark_sigma := Fin (15 # 100);
  light_sigma := Fin (15 # 100);
  mid_tone_center := Fin (65 # 100);
  mid_tone_sigma := Fin (2 # 10);
  mid_tone_boost := Fin (15 # 10)
|}.

Definition params_finite (p : importance_params) : Prop :=
  Float.is_finite (extreme_downweight p) = true /\
  Float.is_finite (dark_threshold p) = true /\
  Float.is_finite (light_threshold p) = true /\
  Float.is_finite (dark_sigma p) = true /\
  Float.is_finite (light_sigma p) = true /\
  Float.is_finite (mid_tone_center p) = true /\
  Float.is_finite (mid_tone_sigma p) = true /\
  Float.is_finite (mid_tone_boost p) = true.

Section Importance.
Context `{NumPy}.
Local Open Scope float_scope.

Definition minus_half : float := Fin (- (1 # 2))%Q.

(** One cell of the importance before normalisation (lines 42-71). *)
Definition raw_importance (p : importance_params) (image : float) : float :=
  let inverted := Float.one - image in
  let dark_distances :=
    Float.maximum Float.zero (dark_threshold p - image) / dark_sigma p in
  let dark_weights :=
    extreme_downweight p
    + (Float.one - extreme_downweight p)
      * np_exp (minus_half * Float.square dark_distances) in
  let dark_weights :=
    if Float.geb image (dark_threshold p) then Float.one else dark_weights in
  let light_distances :=
    Float.maximum Float.zero (image - light_threshold p) / light_sigma p in
  let light_weights :=
    extreme_downweight p
    + (Float.one - extreme_downweight p)
      * np_exp (minus_half * Float.square light_distances) in
  let light_weights :=
    if Float.leb image (light_threshold p) then Float.one else light_weights in
  let extreme_weights := Float.minimum dark_weights light_weights in
  let importance := inverted * extreme_weights in
  let mid_tone_gaussian :=
    np_exp (minus_half
            * Float.square ((image - mid_tone_center p) / mid_tone_sigma p)) in
  let mid_tone_factor :=
    Float.one + (mid_tone_boost p - Float.one) * mid_tone_gaussian in
  importance * mid_tone_factor.

Definition compute_importance (p : importance_params) (image : ndarray)
  : result ndarray :=
  let importance := map_array (raw_importance p) image in
  importance_min <- amin importance ;;
  importance_max <- amax importance ;;
  if Float.gtb importance_max importance_min
  then Ok (map_array
             (fun v => (v - importance_min) / (importance_max - importance_min))
             importance)
  else Ok (full (nrows importance) (ncols importance) Float.one).

End Importance.

(** ** blue_noise.py *)

(** A sample: row, column and the importance there. *)
Definition sample : Type := (nat * nat * float)%type.

Definition location (s : sample) : nat * nat := (fst (fst s), snd (fst s)).

Section BlueNoise.
Context `{NumPy}.
Local Open Scope float_scope.

(** [np.ogrid[:size, :size]] is empty for a negative size. *)
Definition toroidal_gaussian_kernel (size : Z) (sigma : float) (normalize : bool)
  : ndarray :=
  let size := if (size mod 2 =? 0)%Z then (size + 1)%Z else size in
  let center := (size / 2)%Z in
  let n := Z.to_nat size in
  let kernel :=
    mk_ndarray n n
      (flat_map
         (fun y =>
            map (fun x =>
                   let dy := (Z.of_nat y - center)%Z in
                   let dx := (Z.of_nat x - center)%Z in
                   let distances := np_sqrt (Float.of_Z (dy ^ 2 + dx ^ 2)) in
                   np_exp (minus_half * Float.square (distances / sigma)))
                (seq 0 n))
         (seq 0 n)) in
  if normalize
  then map_array (fun v => v / asum kernel) kernel
  else kernel.

(** Lines 91-93. *)
Definition kernel_size (sigma : float) : result Z :=
  k <- int_of_float (Float.of_Z 6 * sigma) ;;
  let kernel_size := (k + 1)%Z in
  Ok (if (kernel_size mod 2 =? 0)%Z then (kernel_size + 1)%Z else kernel_size).

(** Lines 91-97: the kernel scaled by [sigma ** 2]. *)
Definition repulsion_kernel (sigma : float) : result ndarray :=
  kernel_size <- kernel_size sigma ;;
  let repulsion_kernel := toroidal_gaussian_kernel kernel_size sigma false in
  Ok (map_array (fun v => v * Float.square sigma) repulsion_kernel).

(** Line 84. *)
Definition num_points (H W : nat) (percentage : float) : result Z :=
  int_of_float (Float.of_Z (Z.of_nat H * Z.of_nat W) * percentage).

(** Lines 112-120: the first point, the minimum of a window at the centre. *)
Definition first_point (energy : ndarray) : result (nat * nat) :=
  let H := Z.of_nat (nrows energy) in
  let W := Z.of_nat (ncols energy) in
  let center_y := (H / 2)%Z in
  let center_x := (W / 2)%Z in
  let search_radius := (Z.min H W / 4)%Z in
  let y_min := Z.max 0 (center_y - search_radius) in
  let y_max := Z.min H (center_y + search_radius) in
  let x_min := Z.max 0 (center_x - search_radius) in
  let x_max := Z.min W (center_x + search_radius) in
  let local_energy :=
    slice energy (Z.to_nat y_min) (Z.to_nat y_max)
                 (Z.to_nat x_min) (Z.to_nat x_max) in
  min_idx <- argmin local_energy ;;
  let min_idx := unravel_index min_idx (shape local_energy) in
  Ok (Z.to_nat y_min + fst min_idx, Z.to_nat x_min + snd min_idx)%nat.

(** [np.random.randn(H, W)]: H*W draws, in row-major order. *)
Fixpoint draws (g : rng_state) (n : nat) : list float * rng_state :=
  match n with
  | O => ([], g)
  | S n' =>
      let (v, g1) := standard_normal g in
      let (l, g2) := draws g1 n' in
      (v :: l, g2)
  end.

Definition randn (g : rng_state) (H W : nat) : ndarray * rng_state :=
  let (l, g') := draws g (H * W) in (mk_ndarray H W l, g').

(** [1.0 - i / num_points] *)
Definition anneal (i num_points : Z) : float :=
  Float.one - Float.of_Z i / Float.of_Z num_points.

(** Lines 123-124: a copy of the energy with annealed noise added; the
    energy itself is not changed. *)
Definition energy_with_noise (g : rng_state) (energy : ndarray)
           (noise_scale_factor : float) (i num_points : Z)
  : ndarray * rng_state :=
  let (drawn, g') := randn g (nrows energy) (ncols energy) in
  let noise :=
    map_array (fun r => r * noise_scale_factor * anneal i num_points) drawn in
  (zip_array Float.add energy noise, g').

(** Lines 123-128: the global minimum of the energy with noise. *)
Definition noisy_point (g : rng_state) (energy : ndarray)
           (noise_scale_factor : float) (i num_points : Z)
  : result (nat * nat * rng_state) :=
  let (energy_with_noise, g') :=
    energy_with_noise g energy noise_scale_factor i num_points in
  min_idx <- argmin energy_with_noise ;;
  let min_idx := unravel_index min_idx (shape energy_with_noise) in
  Ok (fst min_idx, snd min_idx, g').

(** Line 154 for one kernel cell. *)
Definition add_kernel_cell (kernel : ndarray) (y x : nat)
           (ky_offset kx_offset : nat) (energy : ndarray) : ndarray :=
  let H := Z.of_nat (nrows energy) in
  let W := Z.of_nat (ncols energy) in
  let ky_center := Z.of_nat (nrows kernel / 2) in
  let kx_center := Z.of_nat (ncols kernel / 2) in
  let dy := (Z.of_nat ky_offset - ky_center)%Z in
  let dx := (Z.of_nat kx_offset - kx_center)%Z in
  let target_y := Z.to_nat ((Z.of_nat y + dy) mod H) in
  let target_x := Z.to_nat ((Z.of_nat x + dx) mod W) in
  set energy target_y target_x
      (get energy target_y target_x + get kernel ky_offset kx_offset).

(** Lines 139-154: the two nested loops over the kernel. *)
Definition accumulate_kernel (energy kernel : ndarray) (y x : nat) : ndarray :=
  fold_left
    (fun energy ky_offset =>
       fold_left
         (fun energy kx_offset =>
            add_kernel_cell kernel y x ky_offset kx_offset energy)
         (seq 0 (ncols kernel)) energy)
    (seq 0 (nrows kernel)) energy.

Record loop_state : Type := mk_state {
  energy : ndarray;
  stipple_image : ndarray;
  samples : list sample;
  generator : rng_state
}.

(** The body of the loop at index [i] (lines 108-157). *)
Definition iteration (importance repulsion_kernel : ndarray)
           (noise_scale_factor : float) (num_points : Z)
           (i : nat) (st : loop_state) : result loop_state :=
  '(y, x, g) <-
    (if (i =? 0)%nat
     then '(y, x) <- first_point (energy st) ;; Ok (y, x, generator st)
     else noisy_point (generator st) (energy st) noise_scale_factor
                      (Z.of_nat i) num_points) ;;
  let intensity := get importance y x in
  let samples := samples st ++ [(y, x, intensity)] in
  let stipple_image := set (stipple_image st) y x Float.zero in
  let energy := accumulate_kernel (energy st) repulsion_kernel y x in
  let energy := set energy y x PInf in
  Ok (mk_state energy stipple_image samples g).

(** [for i in range(i, i + n)] *)
Fixpoint for_range (body : nat -> loop_state -> result loop_state)
         (i n : nat) (st : loop_state) : result loop_state :=
  match n with
  | O => Ok st
  | S n' => st' <- body i st ;; for_range body (S i) n' st'
  end.

(** Lines 80-104: the state the loop starts in. *)
Definition initial_state (g : rng_state) (importance : ndarray)
           (content_bias : float) : loop_state :=
  mk_state (map_array (fun v => - v * content_bias) importance)
           (full (nrows importance) (ncols importance) Float.one)
           [] g.

Definition seeded (g0 : rng_state) (seed : option Z) : rng_state :=
  match seed with
  | Some s => np_random_seed s
  | None => g0
  end.

(** The state after the first [k] iterations of a call, or at the end of
    the loop when it has fewer. *)
Definition run (g0 : rng_state) (importance : ndarray)
           (percentage sigma content_bias noise_scale_factor : float)
           (seed : option Z) (k : nat) : result loop_state :=
  num_points <- num_points (nrows importance) (ncols importance) percentage ;;
  repulsion_kernel <- repulsion_kernel sigma ;;
  for_range (iteration importance repulsion_kernel noise_scale_factor num_points)
            0 (Nat.min k (Z.to_nat num_points))
            (initial_state (seeded g0 seed) importance content_bias).

(** [void_and_cluster]; [g0] is the generator's state at the call, and the
    state it is left in is returned with the two outputs. *)
Definition void_and_cluster (g0 : rng_state) (importance : ndarray)
           (percentage sigma content_bias noise_scale_factor : float)
           (seed : option Z)
  : result (ndarray * list sample * rng_state) :=
  num_points <- num_points (nrows importance) (ncols importance) percentage ;;
  repulsion_kernel <- repulsion_kernel sigma ;;
  st <- for_range
          (iteration importance repulsion_kernel noise_scale_factor num_points)
          0 (Z.to_nat num_points)
          (initial_state (seeded g0 seed) importance content_bias) ;;
  Ok (stipple_image st, samples st, generator st).

End BlueNoise.

(** ** viz.py and runner.py

    The numeric parts of the callers of the core: the frame indices and the
    frames of the progressive GIF (the frames as the [imageio] branch builds
    them), the size an image is resized to, the pixel scalings, and the
    sequence of core calls of [run_stippling].  Files, figures and the
    encoders are outside the model. *)

Inductive py_exn : Type :=
| Core (e : exn)                  (* raised inside the core functions *)
| IndexError_list_index           (* l[-1] on an empty list *)
| IndexError_array_index          (* a[y, x] outside the array *)
| ValueError_range_step_zero      (* range(a, b, 0) *)
| ZeroDivisionError.              (* a / 0 on Python numbers *)

Inductive outcome (A : Type) : Type :=
| Returns (a : A)
| Raises (e : py_exn).

Arguments Returns {A} a.
Arguments Raises {A} e.

Definition and_then {A B} (r : outcome A) (k : A -> outcome B) : outcome B :=
  match r with
  | Returns a => k a
  | Raises e => Raises e
  end.

Definition lift {A} (r : result A) : outcome A :=
  match r with
  | Ok a => Returns a
  | Raise e => Raises (Core e)
  end.

(** [len(range(start, stop, step))] for a step other than 0. *)
Definition range_length (start stop step : Z) : Z :=
  if (0 <? step)%Z && (start <? stop)%Z
  then (1 + (stop - 1 - start) / step)%Z
  else if (step <? 0)%Z && (stop <? start)%Z
       then (1 + (start - 1 - stop) / (0 - step))%Z
       else 0%Z.

(** [list(range(start, stop, step))] *)
Definition py_range (start stop step : Z) : outcome (list Z) :=
  if (step =? 0)%Z
  then Raises ValueError_range_step_zero
  else Returns (map (fun k => (start + Z.of_nat k * step)%Z)
                    (seq 0 (Z.to_nat (range_length start stop step)))).

(** [l[-1]] *)
Definition last_item (l : list Z) : outcome Z :=
  match rev l with
  | [] => Raises IndexError_list_index
  | z :: _ => Returns z
  end.

(** viz.py, lines 72-78: the indices of the samples that end a frame. *)
Definition frame_indices (num_samples frame_increment : Z) : outcome (list Z) :=
  and_then (py_range 0 num_samples frame_increment) (fun frame_indices =>
  and_then (last_item frame_indices) (fun last =>
  if negb (last =? num_samples - 1)%Z
  then Returns (frame_indices ++ [(num_samples - 1)%Z])
  else Returns frame_indices)).

(** A sample as [make_progressive_gif] receives it: any two integers. *)
Definition plotted : Type := (Z * Z * float)%type.

Definition to_plotted (s : sample) : plotted :=
  (Z.of_nat (fst (fst s)), Z.of_nat (snd (fst s)), snd s).

(** A frame: H x W pixels of three [uint8] channels, in row-major order. *)
Definition pixel : Type := (Z * Z * Z)%type.

Record frame : Type := mk_frame {
  frame_rows : nat;
  frame_cols : nat;
  pixels : list pixel
}.

Definition white : pixel := (255, 255, 255)%Z.
Definition black : pixel := (0, 0, 0)%Z.

(** [np.ones((H, W, 3), dtype=np.uint8) * 255] *)
Definition white_frame (H W : nat) : frame :=
  mk_frame H W (repeat white (H * W)).

Fixpoint replace_at {A : Type} (l : list A) (i : nat) (v : A) : list A :=
  match l, i with
  | [], _ => []
  | _ :: l', O => v :: l'
  | u :: l', S i' => u :: replace_at l' i' v
  end.

Definition pixel_at (f : frame) (y x : nat) : pixel :=
  nth (y * frame_cols f + x) (pixels f) white.

(** [frame[y, x] = [0, 0, 0]] for indices that are not negative. *)
Definition blacken (f : frame) (y x : Z) : outcome frame :=
  if (y <? Z.of_nat (frame_rows f))%Z && (x <? Z.of_nat (frame_cols f))%Z
  then Returns (mk_frame (frame_rows f) (frame_cols f)
                  (replace_at (pixels f)
                     (Z.to_nat y * frame_cols f + Z.to_nat x) black))
  else Raises IndexError_array_index.

(** [max(0, min(hi, v))] *)
Definition clamp (hi v : Z) : Z := Z.max 0 (Z.min hi v).

(** viz.py, lines 139-143: the dots of one frame. *)
Fixpoint draw_dots (H W : Z) (frame_samples : list plotted) (f : frame)
  : outcome frame :=
  match frame_samples with
  | [] => Returns f
  | (y, x, _) :: rest =>
      let y := clamp (H - 1) y in
      let x := clamp (W - 1) x in
      and_then (blacken f y x) (draw_dots H W rest)
  end.

(** viz.py, lines 133-143: the frame that ends at sample [frame_idx]. *)
Definition fallback_frame (samples : list plotted) (H W : nat) (frame_idx : Z)
  : outcome frame :=
  let frame := white_frame H W in
  if (0 <=? frame_idx)%Z
  then draw_dots (Z.of_nat H) (Z.of_nat W)
                 (firstn (Z.to_nat (frame_idx + 1)) samples) frame
  else Returns frame.

Fixpoint for_each {A B : Type} (f : A -> outcome B) (l : list A)
  : outcome (list B) :=
  match l with
  | [] => Returns []
  | a :: l' =>
      and_then (f a) (fun b =>
      and_then (for_each f l') (fun bs => Returns (b :: bs)))
  end.

(** viz.py, lines 69-78 and 131-145: the frames of the GIF. *)
Definition fallback_frames (samples : list plotted) (H W : nat)
           (frame_increment : Z) : outcome (list frame) :=
  and_then (frame_indices (Z.of_nat (length samples)) frame_increment)
           (for_each (fallback_frame samples H W)).

(** [int(a * b / c)] on Python integers. *)
Definition scaled (a b c : Z) : outcome Z :=
  if (c =? 0)%Z then Raises ZeroDivisionError
  else Returns (Float.Qtrunc (inject_Z (a * b) / inject_Z c)).

(** runner.py, lines 44-50: the size [(w, h)] the image is resized to. *)
Definition resized_size (w h : Z) (max_size : option Z) : outcome (Z * Z) :=
  match max_size with
  | None => Returns (w, h)
  | Some max_size =>
      if (Z.max w h >? max_size)%Z
      then if (w >? h)%Z
           then and_then (scaled h max_size w) (fun new_h =>
                Returns (max_size, new_h))
           else and_then (scaled w max_size h) (fun new_w =>
                Returns (new_w, max_size))
      else Returns (w, h)
  end.

(** runner.py, line 54: 8-bit grey levels scaled by 1/255. *)
Definition img_array (H W : nat) (grey : list Z) : ndarray :=
  mk_ndarray H W (map (fun z => (Float.of_Z z / Fin 255)%float) grey).

(** [astype(np.uint8)] on one value; NumPy leaves the conversion of a value
    that is not finite or is outside 0..255 to the platform. *)
Definition astype_uint8 (a : float) : option Z :=
  match a with
  | Fin q =>
      let z := Float.Qtrunc q in
      if (0 <=? z)%Z && (z <? 256)%Z then Some z else None
  | _ => None
  end.

(** runner.py, line 69: the grey levels of the saved stipple image. *)
Definition stipple_uint8 (stipple : ndarray) : list (option Z) :=
  map (fun v => astype_uint8 (v * Fin 255)%float) (cells stipple).

Section Runner.
Context {np : NumPy}.

(** runner.py, lines 114-137: the calls of [run_stippling] on a loaded
    image, up to the frame indices of the GIF. *)
Definition run_stippling (g0 : rng_state) (image : ndarray)
           (percentage sigma content_bias noise_scale_factor : float)
           (frame_increment : Z) (seed : option Z)
  : outcome (ndarray * ndarray * list sample * list Z) :=
  and_then (lift (compute_importance default_params image)) (fun importance =>
  and_then (lift (void_and_cluster g0 importance percentage sigma content_bias
                                   noise_scale_factor seed))
           (fun '(stipple, samples, _) =>
  and_then (frame_indices (Z.of_nat (length samples)) frame_increment)
           (fun frames =>
  Returns (importance, stipple, samples, frames)))).

End Runner.

(** ** A concrete instance of the NumPy functions

    Rational stand-ins on which the model can be evaluated: [exp] by
    [1 / (1 - x)] on negative arguments and [1 + x] on the others, [sqrt] by
    the integer square root on one decimal place, and a linear congruential
    generator whose draws lie in [-1, 1]. *)

Module Reference.

Definition exp (a : float) : float :=
  match a with
  | Fin q => if Qle_bool 0 q then Fin (1 + q) else Fin (/ (1 - q))%Q
  | PInf => PInf
  | NInf => Fin 0
  | NaN => NaN
  end.

Definition sqrt (a : float) : float :=
  match a with
  | Fin q =>
      if Qle_bool 0 q
      then Fin (Z.sqrt (Qnum q * Zpos (Qden q) * 100) # (Qden q * 10))
      else NaN
  | PInf => PInf
  | NInf | NaN => NaN
  end.

Definition lcg (s : Z) : Z := ((1103515245 * s + 12345) mod 2147483648)%Z.

Definition draw (s : Z) : float * Z :=
  (Fin ((lcg s mod 2001 - 1000) # 1000), lcg s).

#[export] Instance numpy : NumPy := {|
  np_exp := exp;
  np_sqrt := sqrt;
  rng_state := Z;
  np_random_seed := fun s => (s mod 2147483648)%Z;
  standard_normal := draw
|}.

(** A 4x4 importance grid, constant but for one cell. *)
Definition importance4 : ndarray :=
  mk_ndarray 4 4
    (map Fin [1; 1; 1; 1;  1; 1; 1 # 2; 1;  1; 1; 1; 1;  1; 1; 1; 1]%Q).

Definition importance2 : ndarray := full 2 2 (Fin 1).

End Reference.

(** ** Vocabulary of the properties *)

(** A cell of the stipple grid holding 0.0. *)
Definition is_mark (v : float) : bool :=
  match v with Fin q => Qeq_bool q 0 | _ => false end.

Definition count_marks (a : ndarray) : nat :=
  length (filter is_mark (cells a)).

(** [n] is the smallest odd integer that is at least [q]. *)
Definition smallest_odd_geq (q : Q) (n : Z) : Prop :=
  Z.odd n = true /\ (q <= inject_Z n)%Q /\
  forall m, Z.odd m = true -> (q <= inject_Z m)%Q -> (n <= m)%Z.

(** The kernel cells in the order the two loops visit them. *)
Definition kernel_cells (kernel : ndarray) : list (nat * nat) :=
  list_prod (seq 0 (nrows kernel)) (seq 0 (ncols kernel)).

(** The energy cell a kernel cell is added to when the kernel is centred at
    [(y, x)] on an H x W torus: offsets are taken from the kernel's centre. *)
Definition wrapped_target (H W : nat) (kernel : ndarray) (y x : nat)
           (c : nat * nat) : nat * nat :=
  (Z.to_nat ((Z.of_nat y + (Z.of_nat (fst c) - Z.of_nat (nrows kernel / 2)))
             mod Z.of_nat H),
   Z.to_nat ((Z.of_nat x + (Z.of_nat (snd c) - Z.of_nat (ncols kernel / 2)))
             mod Z.of_nat W)).

Definition hits (H W : nat) (kernel : ndarray) (y x ty tx : nat)
           (c : nat * nat) : bool :=
  (fst (wrapped_target H W kernel y x c) =? ty)%nat
  && (snd (wrapped_target H W kernel y x c) =? tx)%nat.

(** The kernel values that the wraparound sends to the cell [(ty, tx)]. *)
Definition contributions (H W : nat) (kernel : ndarray) (y x ty tx : nat)
  : list float :=
  map (fun c => get kernel (fst c) (snd c))
      (filter (hits H W kernel y x ty tx) (kernel_cells kernel)).

Definition fsum (l : list float) : float := fold_left Float.add l Float.zero.

(** An array of shape H x W. *)
Definition shaped (H W : nat) (a : ndarray) : Prop :=
  nrows a = H /\ ncols a = W /\ shape_ok a.

Definition in_grid (H W : nat) (p : nat * nat) : Prop :=
  fst p < H /\ snd p < W.

Definition locations (l : list sample) : list (nat * nat) := map location l.

Definition all_finite (a : ndarray) : Prop :=
  Forall (fun v => Float.is_finite v = true) (cells a).

Definition returned {A : Type} (r : result A) : bool :=
  match r with Ok _ => true | Raise _ => false end.

(** The two outputs of a call, without the generator's state. *)
Definition outputs {A B G : Type} (r : result (A * B * G)) : result (A * B) :=
  match r with
  | Ok (a, b, _) => Ok (a, b)
  | Raise e => Raise e
  end.

Section Invariants.
Context {np : NumPy}.
Variables H W : nat.

(** After [i] iterations: both grids keep their shape and [i] samples,
    all of them cells of the grid, have been recorded. *)
Definition well_shaped (i : nat) (st : loop_state) : Prop :=
  shaped H W (energy st) /\ shaped H W (stipple_image st)
  /\ length (samples st) = i
  /\ Forall (in_grid H W) (locations (samples st)).

(** The energy cells holding positive infinity are the chosen locations. *)
Definition chosen_are_infinite (st : loop_state) : Prop :=
  forall y x, y < H -> x < W ->
    (get (energy st) y x = PInf <-> In (y, x) (locations (samples st))).

(** The stipple grid holds 0.0 at the chosen locations and 1.0 elsewhere. *)
Definition marks_are_samples (st : loop_state) : Prop :=
  forall y x, y < H -> x < W ->
    (In (y, x) (locations (samples st)) ->
     get (stipple_image st) y x = Float.zero)
    /\ (~ In (y, x) (locations (samples st)) ->
        get (stipple_image st) y x = Float.one).

Definition distinct_marks (st : loop_state) : Prop :=
  NoDup (locations (samples st))
  /\ count_marks (stipple_image st) = length (samples st).

(** The state without the generator. *)
Definition visible (st : loop_state) : ndarray * ndarray * list sample :=
  (energy st, stipple_image st, samples st).

End Invariants.

(** Two results agree on what [f] shows of them. *)
Definition agree {A B : Type} (f : A -> B) (r1 r2 : result A) : Prop :=
  match r1, r2 with
  | Ok a, Ok b => f a = f b
  | Raise e1, Raise e2 => e1 = e2
  | _, _ => False
  end.

(** A value that is finite or NaN. *)
Definition fin_or_nan (a : float) : Prop :=
  Float.is_finite a || Float.is_nan a = true.

(** A list of cells without NaN. *)
Definition no_nan (l : list float) : Prop :=
  Forall (fun v => Float.is_nan v = false) l.

(** * Facts about floats *)

Module FloatFacts.
Import Float.
Local Open Scope Q_scope.

Lemma equiv_refl a : a =f= a.
Proof. destruct a; simpl; auto. reflexivity. Qed.

Lemma equiv_sym a b : a =f= b -> b =f= a.
Proof. destruct a, b; simpl; auto. intros E; now symmetry. Qed.

Lemma equiv_trans a b c : a =f= b -> b =f= c -> a =f= c.
Proof.
  destruct a, b, c; simpl; auto; try tauto.
  intros E1 E2; now rewrite E1.
Qed.

Lemma leb_equiv a a' b b' : a =f= a' -> b =f= b' -> leb a b = leb a' b'.
Proof.
  destruct a, a', b, b'; simpl; try tauto; auto.
  intros E1 E2. now rewrite E1, E2.
Qed.

Lemma is_nan_equiv a a' : a =f= a' -> is_nan a = is_nan a'.
Proof. destruct a, a'; simpl; tauto. Qed.

Lemma add_fin_r a q : (a + Fin q)%float = PInf <-> a = PInf.
Proof. destruct a; simpl; split; intros E; congruence. Qed.

Lemma add_fin_not_pinf a q : a <> PInf -> (a + Fin q)%float <> PInf.
Proof. intros N E. now apply add_fin_r in E. Qed.

(** Adding a value equal to zero changes nothing. *)
Lemma add_zero_equiv a z : z == 0 -> (a + Fin z)%float =f= a.
Proof. destruct a; simpl; auto. intros ->. ring. Qed.

Lemma div_fin x y : ~ y == 0 -> (Fin x / Fin y)%float = Fin (x / y).
Proof.
  intros N. simpl. destruct (Qeq_bool y 0) eqn:E; auto.
  apply Qeq_bool_eq in E. contradiction.
Qed.

Lemma Qtrunc_nonneg q : 0 <= q -> Qtrunc q = Qfloor q.
Proof.
  destruct q as [n d]. unfold Qle, Qtrunc, Qfloor; simpl. intros Hn.
  apply Z.quot_div_nonneg; lia.
Qed.

Lemma Qtrunc_nonpos q : q <= 0 -> (Qtrunc q <= 0)%Z.
Proof.
  destruct q as [n d]. unfold Qle, Qtrunc; simpl. intros Hn.
  assert (n <= 0)%Z by lia.
  replace n with (- - n)%Z by lia.
  rewrite Z.quot_opp_l by lia.
  assert (0 <= Z.quot (- n) (Zpos d))%Z by (apply Z.quot_pos; lia).
  lia.
Qed.

Lemma Qfloor_nonpos q : q <= 0 -> (Qfloor q <= 0)%Z.
Proof.
  intros Hq. change (q <= inject_Z 0) in Hq.
  apply Qfloor_resp_le in Hq. now rewrite Qfloor_Z in Hq.
Qed.

(** [int()] truncates and the spec's floor rounds down: as a number of
    iterations they agree. *)
Lemma to_nat_Qtrunc q : Z.to_nat (Qtrunc q) = Z.to_nat (Qfloor q).
Proof.
  destruct (Qlt_le_dec q 0) as [Hneg | Hpos].
  - apply Qlt_le_weak in Hneg.
    pose proof (Qtrunc_nonpos Hneg). pose proof (Qfloor_nonpos Hneg). lia.
  - now rewrite Qtrunc_nonneg.
Qed.

Lemma Qtrunc_le_Z q (n : Z) :
  (0 <= n)%Z -> q <= inject_Z n -> (Qtrunc q <= n)%Z.
Proof.
  intros Hn Hq. destruct (Qlt_le_dec q 0) as [Hneg | Hpos].
  - apply Qlt_le_weak in Hneg. pose proof (Qtrunc_nonpos Hneg). lia.
  - rewrite Qtrunc_nonneg by assumption.
    apply Qfloor_resp_le in Hq. now rewrite Qfloor_Z in Hq.
Qed.

End FloatFacts.

(** * Facts about lists and arrays *)

Section ArrayFacts.

Lemma update_length l i v : length (update l i v) = length l.
Proof.
  revert i; induction l as [|u l IH]; intros [|i]; simpl; auto.
Qed.

Lemma nth_update_eq l i v d : i < length l -> nth i (update l i v) d = v.
Proof.
  revert i; induction l as [|u l IH]; intros [|i]; simpl; try lia; auto.
  intros Hi. apply IH. lia.
Qed.

Lemma nth_update_neq l i j v d : i <> j -> nth j (update l i v) d = nth j l d.
Proof.
  revert i j; induction l as [|u l IH]; intros [|i] [|j]; simpl; auto; try lia.
Qed.

Lemma update_outside l i v : length l <= i -> update l i v = l.
Proof.
  revert i; induction l as [|u l IH]; intros [|i]; simpl; auto; try lia.
  intros Hi. f_equal. apply IH. lia.
Qed.

Lemma flat_lt H W y x : y < H -> x < W -> y * W + x < H * W.
Proof. nia. Qed.

Lemma unravel_flat W y x :
  x < W -> (y * W + x) / W = y /\ (y * W + x) mod W = x.
Proof.
  intros Hx. split.
  - rewrite Nat.div_add_l by lia. rewrite Nat.div_small by lia. lia.
  - rewrite Nat.add_comm, Nat.Div0.mod_add. now apply Nat.mod_small.
Qed.

Lemma flat_inj W y x y' x' :
  x < W -> x' < W -> y * W + x = y' * W + x' -> y = y' /\ x = x'.
Proof.
  intros Hx Hx' E.
  destruct (unravel_flat y Hx) as [D M].
  destruct (unravel_flat y' Hx') as [D' M'].
  rewrite E in D, M. split; congruence.
Qed.

Lemma flat_unravel W k : k / W * W + k mod W = k.
Proof. pose proof (Nat.div_mod_eq k W). lia. Qed.

Lemma unravel_lt H W k : k < H * W -> k / W < H /\ k mod W < W.
Proof.
  intros Hk. assert (0 < W) by nia. split.
  - apply Nat.Div0.div_lt_upper_bound. lia.
  - apply Nat.mod_upper_bound. lia.
Qed.

Lemma set_nrows a y x v : nrows (set a y x v) = nrows a.
Proof. reflexivity. Qed.

Lemma set_ncols a y x v : ncols (set a y x v) = ncols a.
Proof. reflexivity. Qed.

Lemma set_shape_ok a y x v : shape_ok a -> shape_ok (set a y x v).
Proof. unfold shape_ok; simpl. now rewrite update_length. Qed.

Lemma get_set_same a y x v :
  shape_ok a -> y < nrows a -> x < ncols a -> get (set a y x v) y x = v.
Proof.
  intros Hs Hy Hx. unfold get, set, flat_index; simpl.
  apply nth_update_eq. rewrite Hs. now apply flat_lt.
Qed.

Lemma get_set_other a y x v y' x' :
  x < ncols a -> x' < ncols a -> (y, x) <> (y', x') ->
  get (set a y x v) y' x' = get a y' x'.
Proof.
  intros Hx Hx' N. unfold get, set, flat_index; simpl.
  apply nth_update_neq. intros E.
  destruct (flat_inj _ _ Hx Hx' E). congruence.
Qed.

Lemma map2_length f l1 l2 :
  length l1 = length l2 -> length (map2 f l1 l2) = length l1.
Proof.
  revert l2; induction l1 as [|a l1 IH]; intros [|b l2]; simpl;
    try discriminate; auto.
Qed.

Lemma nth_map2 f l1 l2 k :
  length l1 = length l2 -> k < length l1 ->
  nth k (map2 f l1 l2) NaN = f (nth k l1 NaN) (nth k l2 NaN).
Proof.
  revert l2 k; induction l1 as [|a l1 IH]; intros [|b l2] [|k]; simpl;
    try discriminate; try lia; auto.
  intros E Hk. apply IH; lia.
Qed.

Lemma for_prod_fold (A : Type) (f : nat -> nat -> A -> A) l1 l2 (a : A) :
  fold_left (fun acc i => fold_left (fun acc j => f i j acc) l2 acc) l1 a
  = fold_left (fun acc c => f (fst c) (snd c) acc) (list_prod l1 l2) a.
Proof.
  revert a; induction l1 as [|i l1 IH]; intros a; simpl; auto.
  rewrite fold_left_app, IH. f_equal.
  clear. revert a; induction l2 as [|j l2 IH]; intros a; simpl; auto.
Qed.

End ArrayFacts.

(** * Facts about [np.argmin] *)

Section ArgminFacts.
Import Float.

Lemma geb_pinf v mp : mp <> NaN -> geb v mp = false -> v <> PInf.
Proof. intros N G E. subst v. destruct mp; simpl in G; congruence. Qed.

Lemma geb_of_pinf v : geb v PInf = true -> v = PInf.
Proof. destruct v; simpl; congruence. Qed.

(** The scan keeps the old minimum only if no cell is below it, and
    otherwise stops on a cell that is not positive infinity. *)
Lemma argmin_scan_spec l : forall mp min_ind i,
  mp <> NaN ->
  let j := argmin_scan mp min_ind i l in
  (j = min_ind /\ Forall (fun v => geb v mp = true) l) \/
  (i <= j < i + length l /\ nth (j - i) l NaN <> PInf).
Proof.
  induction l as [|v l IH]; intros mp min_ind i Hmp; simpl.
  - left; split; auto.
  - destruct (geb v mp) eqn:G; simpl.
    + destruct (IH mp min_ind (S i) Hmp) as [[E F] | [B P]].
      * left; split; auto.
      * right. split; [lia|].
        replace (argmin_scan mp min_ind (S i) l - i)
          with (S (argmin_scan mp min_ind (S i) l - S i)) by lia.
        exact P.
    + destruct (is_nan v) eqn:Nv.
      * right. split; [lia|]. rewrite Nat.sub_diag. simpl.
        destruct v; simpl in Nv; congruence.
      * assert (Hv : v <> NaN) by (intros ->; discriminate).
        destruct (IH v i (S i) Hv) as [[E F] | [B P]].
        -- right. rewrite E. split; [lia|]. rewrite Nat.sub_diag. simpl.
           exact (geb_pinf Hmp G).
        -- right. split; [lia|].
           replace (argmin_scan v i (S i) l - i)
             with (S (argmin_scan v i (S i) l - S i)) by lia.
           exact P.
Qed.

Lemma argmin_in_range a j : argmin a = Ok j -> j < length (cells a).
Proof.
  unfold argmin. destruct (cells a) as [|v l]; [discriminate|].
  intros E; injection E as <-. simpl.
  destruct (is_nan v) eqn:Nv; [lia|].
  assert (Hv : v <> NaN) by (intros ->; discriminate).
  destruct (argmin_scan_spec l 0 1 Hv) as [[E F] | [B P]]; lia.
Qed.

Lemma argmin_total a : cells a <> [] -> exists j, argmin a = Ok j.
Proof.
  unfold argmin. destruct (cells a); [congruence|]. eauto.
Qed.

(** If some cell is not positive infinity, neither is the selected one. *)
Lemma argmin_not_pinf a j k :
  argmin a = Ok j -> k < length (cells a) -> nth k (cells a) NaN <> PInf ->
  nth j (cells a) NaN <> PInf.
Proof.
  unfold argmin. destruct (cells a) as [|v l]; [discriminate|].
  intros E Hk Pk; injection E as <-.
  destruct (is_nan v) eqn:Nv.
  - simpl. destruct v; simpl in Nv; congruence.
  - assert (Hv : v <> NaN) by (intros ->; discriminate).
    destruct (argmin_scan_spec l 0 1 Hv) as [[E F] | [B P]].
    + rewrite E. simpl. intros ->.
      destruct k as [|k]; [now apply Pk|].
      simpl in Pk, Hk. apply Pk.
      rewrite Forall_forall in F. apply geb_of_pinf, F, nth_In. lia.
    + remember (argmin_scan v 0 1 l) as j.
      destruct j as [|j]; [lia|]. simpl.
      replace (S j - 1) with j in P by lia. exact P.
Qed.

(** Cells that are equal as values give the same index. *)
Lemma argmin_scan_equiv l1 : forall l2 mp1 mp2 min_ind i,
  Forall2 equiv l1 l2 -> mp1 =f= mp2 ->
  argmin_scan mp1 min_ind i l1 = argmin_scan mp2 min_ind i l2.
Proof.
  induction l1 as [|v1 l1 IH]; intros l2 mp1 mp2 min_ind i F E;
    inversion F as [|? v2 ? l2' Ev Fl]; subst; simpl; auto.
  unfold geb. rewrite (FloatFacts.leb_equiv _ _ _ _ E Ev).
  rewrite (FloatFacts.is_nan_equiv _ _ Ev).
  destruct (leb mp2 v2); simpl; auto.
  destruct (is_nan v2); auto.
Qed.

Lemma argmin_equiv a b :
  Forall2 equiv (cells a) (cells b) -> argmin a = argmin b.
Proof.
  unfold argmin. intros F.
  inversion F as [|v1 v2 l1 l2 Ev Fl E1 E2]; auto.
  rewrite (FloatFacts.is_nan_equiv _ _ Ev).
  destruct (is_nan v2); auto.
  f_equal. now apply argmin_scan_equiv.
Qed.

End ArgminFacts.

(** * The first point *)

Unset Implicit Arguments.

Section FirstPoint.

Lemma flat_map_rows_length (f : nat -> nat -> float) ys xs :
  length (flat_map (fun y => map (fun x => f y x) xs) ys)
  = length ys * length xs.
Proof.
  induction ys as [|y ys IH]; simpl; auto.
  now rewrite length_app, length_map, IH.
Qed.

Lemma slice_shape_ok a y0 y1 x0 x1 : shape_ok (slice a y0 y1 x0 x1).
Proof.
  unfold shape_ok, slice; simpl.
  now rewrite flat_map_rows_length, !length_seq.
Qed.

Lemma slice_no_rows a y0 y1 x0 x1 :
  y1 - y0 = 0 -> cells (slice a y0 y1 x0 x1) = [].
Proof. unfold slice; simpl. now intros ->. Qed.

(** With [min(H, W) <= 3] the window has no rows and [np.argmin] raises. *)
Lemma first_point_small energy :
  Nat.min (nrows energy) (ncols energy) <= 3 ->
  first_point energy = Raise ValueError_argmin_empty.
Proof.
  intros Hmin. unfold first_point, argmin.
  rewrite slice_no_rows; [reflexivity|].
  assert (R : (Z.min (Z.of_nat (nrows energy)) (Z.of_nat (ncols energy)) / 4
               = 0)%Z) by (apply Z.div_small; lia).
  rewrite R. lia.
Qed.

Lemma quarter_bounds (n : Z) :
  (4 * (n / 4) <= n /\ n < 4 * (n / 4) + 4)%Z.
Proof.
  pose proof (Z.div_mod n 4). pose proof (Z.mod_pos_bound n 4). lia.
Qed.

Lemma window_bounds (n r : Z) :
  (1 <= r)%Z -> (4 * r <= n)%Z ->
  Z.to_nat (Z.max 0 (n / 2 - r)) < Z.to_nat (Z.min n (n / 2 + r))
  /\ (Z.min n (n / 2 + r) <= n)%Z.
Proof.
  intros Hr Hn.
  pose proof (Z.div_mod n 2). pose proof (Z.mod_pos_bound n 2).
  remember (n / 2)%Z as c eqn:Ec. clear Ec. lia.
Qed.

(** With [min(H, W) >= 4] the window is not empty and the point found is
    a cell of the grid. *)
Lemma first_point_large energy :
  4 <= Nat.min (nrows energy) (ncols energy) ->
  exists y x, first_point energy = Ok (y, x)
              /\ y < nrows energy /\ x < ncols energy.
Proof.
  intros Hmin. unfold first_point.
  set (H := Z.of_nat (nrows energy)). set (W := Z.of_nat (ncols energy)).
  set (r := (Z.min H W / 4)%Z).
  assert (Hm : (4 <= Z.min H W)%Z) by (subst H W; lia).
  pose proof (quarter_bounds (Z.min H W)) as Hq. fold r in Hq.
  assert (Hr : (1 <= r)%Z) by lia.
  destruct (window_bounds H r) as [Hy Hy']; [lia | lia |].
  destruct (window_bounds W r) as [Hx Hx']; [lia | lia |].
  set (y0 := Z.to_nat (Z.max 0 (H / 2 - r))) in *.
  set (y1 := Z.to_nat (Z.min H (H / 2 + r))) in *.
  set (x0 := Z.to_nat (Z.max 0 (W / 2 - r))) in *.
  set (x1 := Z.to_nat (Z.min W (W / 2 + r))) in *.
  assert (Hy1 : y1 <= nrows energy) by (subst y1 H; lia).
  assert (Hx1 : x1 <= ncols energy) by (subst x1 W; lia).
  pose proof (slice_shape_ok energy y0 y1 x0 x1) as Hs.
  unfold shape_ok in Hs.
  destruct (@argmin_total (slice energy y0 y1 x0 x1)) as [j Hj].
  { intros E. rewrite E in Hs. simpl in Hs. nia. }
  pose proof (argmin_in_range _ Hj) as Hjr. rewrite Hs in Hjr.
  simpl in Hjr.
  destruct (unravel_lt _ _ Hjr) as [Hd Hm'].
  rewrite Hj. simpl. do 2 eexists. split; [reflexivity|]. lia.
Qed.

End FirstPoint.

(** * The kernel *)

Section KernelFacts.
Context `{NumPy}.
Local Open Scope Q_scope.

Lemma kernel_size_fin s :
  kernel_size (Fin s)
  = Ok (let k := (Float.Qtrunc (inject_Z 6 * s) + 1)%Z in
        if (k mod 2 =? 0)%Z then (k + 1)%Z else k).
Proof. reflexivity. Qed.

Lemma kernel_nrows size sigma :
  nrows (toroidal_gaussian_kernel size sigma false)
  = Z.to_nat (if (size mod 2 =? 0)%Z then (size + 1)%Z else size).
Proof. reflexivity. Qed.

Lemma kernel_ncols size sigma :
  ncols (toroidal_gaussian_kernel size sigma false)
  = Z.to_nat (if (size mod 2 =? 0)%Z then (size + 1)%Z else size).
Proof. reflexivity. Qed.

Lemma kernel_shape_ok size sigma :
  shape_ok (toroidal_gaussian_kernel size sigma false).
Proof.
  unfold shape_ok, toroidal_gaussian_kernel; simpl.
  now rewrite flat_map_rows_length, !length_seq.
Qed.

Lemma repulsion_kernel_fin s :
  repulsion_kernel (Fin s)
  = Ok (map_array (fun v => (v * Float.square (Fin s))%float)
          (toroidal_gaussian_kernel
             (let k := (Float.Qtrunc (inject_Z 6 * s) + 1)%Z in
              if (k mod 2 =? 0)%Z then (k + 1)%Z else k)
             (Fin s) false)).
Proof. reflexivity. Qed.

Lemma next_odd_spec (t : Z) :
  let k := if (t mod 2 =? 0)%Z then (t + 1)%Z else t in
  Z.odd k = true /\ (t <= k)%Z
  /\ forall m, Z.odd m = true -> (t <= m)%Z -> (k <= m)%Z.
Proof.
  simpl. rewrite Zmod_odd. destruct (Z.odd t) eqn:Ot; simpl.
  - repeat split; auto; lia.
  - repeat split; try lia.
    + rewrite Z.odd_add, Ot. reflexivity.
    + intros m Om Hm. assert (m <> t) by congruence. lia.
Qed.

(** A kernel size is odd, so the kernel function leaves it as it is. *)
Lemma odd_size_kept (k : Z) :
  Z.odd k = true -> (if (k mod 2 =? 0)%Z then (k + 1)%Z else k) = k.
Proof. intros Ok. rewrite Zmod_odd, Ok. reflexivity. Qed.

Lemma Qtrunc_opp q : q <= 0 -> Float.Qtrunc q = (- Qfloor (- q))%Z.
Proof.
  intros Hq. destruct q as [n d]. unfold Qle in Hq; simpl in Hq.
  unfold Float.Qtrunc, Qfloor, Qopp; simpl.
  replace n with (- - n)%Z at 1 by lia.
  rewrite Z.quot_opp_l by lia. f_equal.
  apply Z.quot_div_nonneg; lia.
Qed.

Lemma Qfloor_lt_2 x : x < 2 -> (Qfloor x <= 1)%Z.
Proof.
  intros Hx. pose proof (Qfloor_le x) as Hf.
  assert (Hlt : inject_Z (Qfloor x) < inject_Z 2)
    by (eapply Qle_lt_trans; eauto).
  rewrite <- Zlt_Qlt in Hlt. lia.
Qed.

Lemma Qfloor_ge_2 x : 2 <= x -> (2 <= Qfloor x)%Z.
Proof.
  intros Hx. change (inject_Z 2 <= x) in Hx.
  apply Qfloor_resp_le in Hx. now rewrite Qfloor_Z in Hx.
Qed.

Section Finite.
Hypothesis laws : NumPyLaws _.

Lemma gaussian_cell_finite (z : Z) s :
  (0 <= z)%Z -> ~ s == 0 ->
  exists r,
    (np_exp (minus_half * Float.square (np_sqrt (Float.of_Z z) / Fin s))
     * Float.square (Fin s))%float = Fin r.
Proof.
  intros Hz Hs.
  destruct (@sqrt_finite _ laws (inject_Z z)) as [d Hd].
  { rewrite Zle_Qle in Hz. exact Hz. }
  unfold Float.of_Z. rewrite Hd, FloatFacts.div_fin by assumption.
  simpl. destruct (exp_finite laws (- (1 # 2) * (d / s * (d / s)))) as [e He].
  rewrite He. simpl. eauto.
Qed.

Lemma scaled_kernel_finite size s :
  ~ s == 0 ->
  Forall (fun v => Float.is_finite v = true)
         (cells (map_array (fun v => (v * Float.square (Fin s))%float)
                   (toroidal_gaussian_kernel size (Fin s) false))).
Proof.
  intros Hs.
  unfold map_array, toroidal_gaussian_kernel. cbv zeta. cbn [cells].
  rewrite Forall_forall. intros v Hv.
  apply in_map_iff in Hv. destruct Hv as [u [Ev Hu]].
  apply in_flat_map in Hu. destruct Hu as [y [_ Hu]].
  apply in_map_iff in Hu. destruct Hu as [x [Eu _]].
  rewrite <- Ev, <- Eu.
  match goal with
  | |- context [Float.of_Z ?z] =>
      destruct (gaussian_cell_finite z s) as [r Hr];
      [rewrite !Z.pow_2_r; nia | assumption |]
  end.
  rewrite Hr. reflexivity.
Qed.

(** For a finite sigma other than 0 every kernel value is finite. *)
Lemma repulsion_kernel_finite s K :
  ~ s == 0 -> repulsion_kernel (Fin s) = Ok K ->
  Forall (fun v => Float.is_finite v = true) (cells K).
Proof.
  intros Hs E. rewrite repulsion_kernel_fin in E.
  assert (E' : K = map_array (fun v => (v * Float.square (Fin s))%float)
        (toroidal_gaussian_kernel
           (let k := (Float.Qtrunc (inject_Z 6 * s) + 1)%Z in
            if (k mod 2 =? 0)%Z then (k + 1)%Z else k)
           (Fin s) false)) by congruence.
  rewrite E'. now apply scaled_kernel_finite.
Qed.

End Finite.

End KernelFacts.

(** * Kernel accumulation *)

Section Accumulate.
Context {np : NumPy}.
Variables (H W : nat) (K : ndarray) (y x : nat).
Hypothesis HH : 0 < H.
Hypothesis HW : 0 < W.

Lemma wrapped_target_in_grid c : in_grid H W (wrapped_target H W K y x c).
Proof.
  unfold in_grid, wrapped_target; simpl.
  split.
  - match goal with |- Z.to_nat (?a mod ?b) < _ =>
      pose proof (Z.mod_pos_bound a b) end. lia.
  - match goal with |- Z.to_nat (?a mod ?b) < _ =>
      pose proof (Z.mod_pos_bound a b) end. lia.
Qed.

Lemma add_kernel_cell_shaped e c :
  shaped H W e -> shaped H W (add_kernel_cell K y x (fst c) (snd c) e).
Proof.
  intros (Hr & Hc & Hs). unfold add_kernel_cell.
  repeat split; auto using set_shape_ok.
Qed.

Lemma add_kernel_cell_get e c ty tx :
  shaped H W e -> ty < H -> tx < W ->
  get (add_kernel_cell K y x (fst c) (snd c) e) ty tx
  = if hits H W K y x ty tx c
    then (get e ty tx + get K (fst c) (snd c))%float
    else get e ty tx.
Proof.
  intros (Hr & Hc & Hs) Hty Htx.
  destruct (wrapped_target_in_grid c) as [Hy' Hx'].
  unfold add_kernel_cell, hits. rewrite Hr, Hc.
  unfold in_grid, wrapped_target in *. cbv zeta. cbn [fst snd] in *.
  set (ty' := Z.to_nat (_ mod Z.of_nat H)) in *.
  set (tx' := Z.to_nat (_ mod Z.of_nat W)) in *.
  destruct (Nat.eqb_spec ty' ty) as [-> | Ny]; cbn [andb].
  - destruct (Nat.eqb_spec tx' tx) as [-> | Nx].
    + apply get_set_same; auto; lia.
    + apply get_set_other; try lia. congruence.
  - apply get_set_other; try lia. congruence.
Qed.

Lemma accumulate_as_fold e :
  accumulate_kernel e K y x
  = fold_left (fun acc c => add_kernel_cell K y x (fst c) (snd c) acc)
              (kernel_cells K) e.
Proof.
  unfold accumulate_kernel, kernel_cells.
  exact (for_prod_fold (fun i j acc => add_kernel_cell K y x i j acc) _ _ e).
Qed.

Lemma fold_cells_shaped l : forall e,
  shaped H W e ->
  shaped H W
    (fold_left (fun acc c => add_kernel_cell K y x (fst c) (snd c) acc) l e).
Proof.
  induction l as [|c l IH]; intros e He; simpl; auto.
  apply IH. now apply add_kernel_cell_shaped.
Qed.

Lemma fold_cells_get l ty tx : forall e,
  shaped H W e -> ty < H -> tx < W ->
  get (fold_left (fun acc c => add_kernel_cell K y x (fst c) (snd c) acc) l e)
      ty tx
  = fold_left Float.add
      (map (fun c => get K (fst c) (snd c)) (filter (hits H W K y x ty tx) l))
      (get e ty tx).
Proof.
  induction l as [|c l IH]; intros e He Hty Htx; simpl; auto.
  rewrite IH by (auto using add_kernel_cell_shaped).
  rewrite add_kernel_cell_get by assumption.
  destruct (hits H W K y x ty tx c); reflexivity.
Qed.

Lemma accumulate_shaped e :
  shaped H W e -> shaped H W (accumulate_kernel e K y x).
Proof. intros He. rewrite accumulate_as_fold. now apply fold_cells_shaped. Qed.

(** Each cell receives, in the order of the loops, the kernel values that
    the wraparound sends to it. *)
Lemma accumulate_get e ty tx :
  shaped H W e -> ty < H -> tx < W ->
  get (accumulate_kernel e K y x) ty tx
  = fold_left Float.add (contributions H W K y x ty tx) (get e ty tx).
Proof.
  intros He Hty Htx. rewrite accumulate_as_fold.
  now rewrite fold_cells_get.
Qed.

End Accumulate.

(** * The placement loop *)

Section Loop.
Context {np : NumPy}.
Variables (importance K : ndarray) (nsf : float) (N : Z).

Local Abbreviation H := (nrows importance).
Local Abbreviation W := (ncols importance).
Local Abbreviation body := (iteration importance K nsf N).

Lemma draws_length n : forall g, length (fst (draws g n)) = n.
Proof.
  induction n as [|n IH]; intros g; simpl; auto.
  destruct (standard_normal g) as [v g1]. specialize (IH g1).
  destruct (draws g1 n). simpl in *. lia.
Qed.

Lemma draws_finite n :
  NumPyLaws np ->
  forall g, Forall (fun v => Float.is_finite v = true) (fst (draws g n)).
Proof.
  intros laws. induction n as [|n IH]; intros g; simpl; auto.
  pose proof (normal_finite laws g) as Hv.
  destruct (standard_normal g) as [v g1]. specialize (IH g1).
  destruct (draws g1 n). simpl in *. auto.
Qed.

Lemma nth_map_float (f : float -> float) l k :
  k < length l -> nth k (map f l) NaN = f (nth k l NaN).
Proof.
  intros Hk. rewrite (nth_indep _ NaN (f NaN)) by now rewrite length_map.
  apply map_nth.
Qed.

Lemma energy_with_noise_shape g e i :
  shaped H W e ->
  shaped H W (fst (energy_with_noise g e nsf i N)).
Proof.
  intros (Hr & Hc & Hs). unfold energy_with_noise, randn.
  pose proof (draws_length (nrows e * ncols e) g) as Hl.
  destruct (draws g (nrows e * ncols e)) as [l g']. simpl in *.
  repeat split; auto. unfold shape_ok; simpl.
  rewrite map2_length; [exact Hs|]. rewrite length_map. congruence.
Qed.

Lemma energy_with_noise_nth g e i k :
  shaped H W e -> k < H * W ->
  nth k (cells (fst (energy_with_noise g e nsf i N))) NaN
  = (nth k (cells e) NaN
     + nth k (fst (draws g (H * W))) NaN * nsf * anneal i N)%float.
Proof.
  intros (Hr & Hc & Hs) Hk. unfold energy_with_noise, randn.
  rewrite Hr, Hc.
  pose proof (draws_length (H * W) g) as Hl.
  destruct (draws g (H * W)) as [l g']. simpl in *.
  unfold shape_ok in Hs. rewrite Hr, Hc in Hs.
  rewrite nth_map2 by (rewrite ?length_map; lia).
  now rewrite nth_map_float by lia.
Qed.

Lemma noisy_point_inv g e i y x g' :
  shaped H W e ->
  noisy_point g e nsf i N = Ok (y, x, g') ->
  exists j, argmin (fst (energy_with_noise g e nsf i N)) = Ok j
            /\ j < H * W /\ y = j / W /\ x = j mod W.
Proof.
  intros He. pose proof (energy_with_noise_shape g e i He) as (Hr & Hc & Hs).
  unfold noisy_point.
  destruct (energy_with_noise g e nsf i N) as [ewn g1]. simpl in *.
  destruct (argmin ewn) as [j|] eqn:Ej; simpl; [|discriminate].
  intros E. injection E as <- <- <-.
  exists j. apply argmin_in_range in Ej. unfold shape_ok in Hs.
  rewrite Hc. repeat split; auto. rewrite <- Hr, <- Hc. lia.
Qed.

Lemma noisy_point_total g e i :
  shaped H W e -> 0 < H * W ->
  exists y x g', noisy_point g e nsf i N = Ok (y, x, g').
Proof.
  intros He Hpos.
  pose proof (energy_with_noise_shape g e i He) as (Hr & Hc & Hs).
  unfold noisy_point.
  destruct (energy_with_noise g e nsf i N) as [ewn g1]. simpl in *.
  destruct (@argmin_total ewn) as [j Hj].
  { intros E. unfold shape_ok in Hs. rewrite E, Hr, Hc in Hs. simpl in Hs. lia. }
  rewrite Hj. simpl. eauto.
Qed.

Lemma first_point_inv e y x :
  shaped H W e -> first_point e = Ok (y, x) -> y < H /\ x < W.
Proof.
  intros (Hr & Hc & Hs) E.
  destruct (le_lt_dec (Nat.min (nrows e) (ncols e)) 3) as [Hs3 | Hs4].
  - rewrite first_point_small in E by assumption. discriminate.
  - destruct (first_point_large e) as (y' & x' & E' & Hy & Hx); [lia|].
    rewrite E in E'. injection E' as <- <-. lia.
Qed.

(** What one iteration does to the state. *)
Lemma iteration_inv i st st' :
  body i st = Ok st' ->
  exists y x g,
    (if i =? 0
     then first_point (energy st) = Ok (y, x) /\ g = generator st
     else noisy_point (generator st) (energy st) nsf (Z.of_nat i) N
          = Ok (y, x, g))
    /\ st' = mk_state
               (set (accumulate_kernel (energy st) K y x) y x PInf)
               (set (stipple_image st) y x Float.zero)
               (samples st ++ [(y, x, get importance y x)])
               g.
Proof.
  unfold iteration. destruct (i =? 0).
  - destruct (first_point (energy st)) as [[y x]|] eqn:E; simpl;
      [|discriminate].
    intros E'. injection E' as <-. exists y, x, (generator st). auto.
  - destruct (noisy_point _ _ _ _ _) as [[[y x] g]|] eqn:E; simpl;
      [|discriminate].
    intros E'. injection E' as <-. exists y, x, g. auto.
Qed.

Lemma selection_in_grid i st y x g :
  shaped H W (energy st) ->
  (if i =? 0
   then first_point (energy st) = Ok (y, x) /\ g = generator st
   else noisy_point (generator st) (energy st) nsf (Z.of_nat i) N
        = Ok (y, x, g)) ->
  y < H /\ x < W.
Proof.
  intros He Hsel. destruct (i =? 0).
  - destruct Hsel as [E _]. eapply first_point_inv; eauto.
  - destruct (noisy_point_inv _ _ _ _ _ _ He Hsel) as (j & _ & Hj & -> & ->).
    split.
    + apply Nat.Div0.div_lt_upper_bound. lia.
    + apply Nat.mod_upper_bound. nia.
Qed.

Lemma locations_snoc l y x v :
  locations (l ++ [(y, x, v)]) = locations l ++ [(y, x)].
Proof. unfold locations. now rewrite map_app. Qed.

Lemma iteration_well_shaped i st st' :
  well_shaped H W i st -> body i st = Ok st' -> well_shaped H W (S i) st'.
Proof.
  intros (He & Hs & Hl & Hg) E.
  destruct (iteration_inv _ _ _ E) as (y & x & g & Hsel & ->).
  destruct (selection_in_grid _ _ _ _ _ He Hsel) as [Hy Hx].
  assert (Ha : shaped H W (accumulate_kernel (energy st) K y x))
    by apply accumulate_shaped, He.
  destruct Ha as (Ha1 & Ha2 & Ha3). destruct Hs as (Hs1 & Hs2 & Hs3).
  unfold well_shaped, shaped; simpl. repeat split; auto using set_shape_ok.
  - rewrite length_app; simpl. lia.
  - rewrite locations_snoc. apply Forall_app. split; auto.
    repeat constructor; simpl; auto.
Qed.

Lemma iteration_total i st :
  well_shaped H W i st -> 4 <= Nat.min H W ->
  exists st', body i st = Ok st'.
Proof.
  intros ((Hr & Hc & Hs) & _) Hmin. unfold iteration.
  destruct (i =? 0).
  - destruct (first_point_large (energy st)) as (y & x & E & _);
      [rewrite Hr, Hc; lia|].
    rewrite E. simpl. eauto.
  - destruct (noisy_point_total (generator st) (energy st) (Z.of_nat i))
      as (y & x & g & E); [repeat split; auto | nia |].
    rewrite E. simpl. eauto.
Qed.

End Loop.

(** * Invariants of the loop *)

Section ListCounting.

Lemma fold_add_finite l : forall a,
  Forall (fun v => Float.is_finite v = true) l ->
  (fold_left Float.add l a = PInf <-> a = PInf).
Proof.
  induction l as [|v l IH]; intros a Hl; simpl; [tauto|].
  inversion Hl as [|? ? Hv Hl']; subst.
  rewrite IH by assumption.
  destruct v; try discriminate. apply FloatFacts.add_fin_r.
Qed.

Lemma filter_update_count (p : float -> bool) l : forall i v,
  i < length l -> p (nth i l NaN) = false -> p v = true ->
  length (filter p (update l i v)) = S (length (filter p l)).
Proof.
  induction l as [|u l IH]; intros [|i] v Hi Hp Hv; simpl in *; try lia.
  - rewrite Hp, Hv. reflexivity.
  - destruct (p u); simpl; rewrite IH; auto; lia.
Qed.

Lemma flat_locations_NoDup H W (l : list (nat * nat)) :
  Forall (in_grid H W) l -> NoDup l ->
  NoDup (map (fun p => fst p * W + snd p) l).
Proof.
  intros Hg Hn. induction Hn as [|p l Hp Hn IH]; simpl; constructor.
  - inversion Hg as [|? ? [_ Hpx] Hg']; subst.
    intros Hin. apply in_map_iff in Hin. destruct Hin as [q [E Hq]].
    rewrite Forall_forall in Hg'. destruct (Hg' q Hq) as [_ Hqx].
    destruct (flat_inj _ _ Hqx Hpx E) as [E1 E2].
    apply Hp. destruct p, q; simpl in *; subst; assumption.
  - apply IH. now inversion Hg.
Qed.

(** Fewer distinct cells than the grid has: some cell is not among them. *)
Lemma free_cell H W (l : list (nat * nat)) :
  Forall (in_grid H W) l -> NoDup l -> length l < H * W ->
  exists y x, y < H /\ x < W /\ ~ In (y, x) l.
Proof.
  intros Hg Hn Hlen.
  set (fl := map (fun p => fst p * W + snd p) l).
  destruct (Exists_dec (fun k => ~ In k fl) (seq 0 (H * W))) as [Hex | Hno].
  { intros k. destruct (in_dec Nat.eq_dec k fl); [right | left]; tauto. }
  - apply Exists_exists in Hex. destruct Hex as [k [Hk Hnot]].
    apply in_seq in Hk. destruct (unravel_lt H W (k:=k)) as [Hy Hx]; [lia|].
    exists (k / W), (k mod W). repeat split; auto.
    intros Hin. apply Hnot. unfold fl. apply in_map_iff.
    exists (k / W, k mod W). split; auto. simpl. apply flat_unravel.
  - exfalso.
    assert (Hincl : incl (seq 0 (H * W)) fl).
    { intros k Hk. destruct (in_dec Nat.eq_dec k fl) as [Hin | Hout]; auto.
      exfalso. apply Hno. apply Exists_exists. eauto. }
    pose proof (NoDup_incl_length (seq_NoDup (H * W) 0) Hincl) as Hle.
    unfold fl in Hle. rewrite length_seq, length_map in Hle. lia.
Qed.

End ListCounting.

Section LoopInvariants.
Context {np : NumPy}.
Variables (importance K : ndarray) (nsf : float) (N : Z).
Hypothesis K_finite : all_finite K.
Hypothesis K_shape : shape_ok K.

Local Abbreviation H := (nrows importance).
Local Abbreviation W := (ncols importance).
Local Abbreviation body := (iteration importance K nsf N).

Lemma contributions_finite y x ty tx :
  Forall (fun v => Float.is_finite v = true) (contributions H W K y x ty tx).
Proof.
  unfold contributions. rewrite Forall_forall. intros v Hv.
  apply in_map_iff in Hv. destruct Hv as [c [<- Hc]].
  apply filter_In in Hc. destruct Hc as [Hc _].
  unfold kernel_cells in Hc. destruct c as [ky kx].
  apply in_prod_iff in Hc. destruct Hc as [Hky Hkx].
  apply in_seq in Hky. apply in_seq in Hkx. simpl.
  unfold all_finite in K_finite. rewrite Forall_forall in K_finite.
  apply K_finite. unfold get, flat_index. apply nth_In.
  rewrite K_shape. apply flat_lt; lia.
Qed.

(** Adding the kernel leaves the set of infinite cells as it was. *)
Lemma accumulate_pinf e y x ty tx :
  shaped H W e -> ty < H -> tx < W ->
  (get (accumulate_kernel e K y x) ty tx = PInf <-> get e ty tx = PInf).
Proof.
  intros He Hty Htx.
  rewrite (accumulate_get H W K y x) by (auto; lia).
  apply fold_add_finite, contributions_finite.
Qed.

Lemma iteration_chosen i st st' :
  well_shaped H W i st -> chosen_are_infinite H W st ->
  body i st = Ok st' -> chosen_are_infinite H W st'.
Proof.
  intros (He & Hs & Hl & Hg) Hc E.
  destruct (iteration_inv _ _ _ _ _ _ _ E) as (y & x & g & Hsel & ->).
  destruct (selection_in_grid _ _ _ _ _ _ _ _ He Hsel) as [Hy Hx].
  assert (Ha : shaped H W (accumulate_kernel (energy st) K y x))
    by apply accumulate_shaped, He.
  destruct Ha as (Ha1 & Ha2 & Ha3).
  intros y' x' Hy' Hx'. simpl. rewrite locations_snoc, in_app_iff.
  destruct (Nat.eq_dec y' y) as [-> | Ny];
    [destruct (Nat.eq_dec x' x) as [-> | Nx]|].
  - rewrite get_set_same by (auto; lia). simpl. tauto.
  - rewrite get_set_other by (try lia; congruence).
    rewrite accumulate_pinf by assumption. rewrite (Hc y x' Hy' Hx').
    simpl. split; [tauto|]. intros [? | [? | []]]; auto. congruence.
  - rewrite get_set_other by (try lia; congruence).
    rewrite accumulate_pinf by assumption. rewrite (Hc y' x' Hy' Hx').
    simpl. split; [tauto|]. intros [? | [? | []]]; auto. congruence.
Qed.

Lemma iteration_marks i st st' :
  well_shaped H W i st -> marks_are_samples H W st ->
  body i st = Ok st' -> marks_are_samples H W st'.
Proof.
  intros (He & (Hs1 & Hs2 & Hs3) & Hl & Hg) Hm E.
  destruct (iteration_inv _ _ _ _ _ _ _ E) as (y & x & g & Hsel & ->).
  destruct (selection_in_grid _ _ _ _ _ _ _ _ He Hsel) as [Hy Hx].
  intros y' x' Hy' Hx'. simpl. rewrite locations_snoc.
  destruct (Hm y' x' Hy' Hx') as [Hin Hout].
  destruct (Nat.eq_dec y' y) as [-> | Ny];
    [destruct (Nat.eq_dec x' x) as [-> | Nx]|].
  - rewrite get_set_same by (auto; lia). split; auto.
    intros Hno. exfalso. apply Hno. apply in_app_iff. simpl. auto.
  - rewrite get_set_other by (try lia; congruence).
    rewrite in_app_iff. simpl. split.
    + intros [? | [? | []]]; auto. congruence.
    + intros Hno. apply Hout. tauto.
  - rewrite get_set_other by (try lia; congruence).
    rewrite in_app_iff. simpl. split.
    + intros [? | [? | []]]; auto. congruence.
    + intros Hno. apply Hout. tauto.
Qed.

End LoopInvariants.

Section Distinct.
Context {np : NumPy}.
Variables (importance K : ndarray) (q : Q) (N : Z).
Hypothesis laws : NumPyLaws np.
Hypothesis N_nonzero : N <> 0%Z.

Local Abbreviation H := (nrows importance).
Local Abbreviation W := (ncols importance).
Local Abbreviation body := (iteration importance K (Fin q) N).

Lemma anneal_finite i : exists a, anneal i N = Fin a.
Proof.
  unfold anneal, Float.of_Z, Float.sub.
  rewrite FloatFacts.div_fin.
  - simpl. eauto.
  - unfold Qeq; simpl. lia.
Qed.

Lemma noise_finite g i k :
  k < H * W ->
  exists z, (nth k (fst (draws g (H * W))) NaN * Fin q * anneal i N)%float
            = Fin z.
Proof.
  intros Hk. destruct (anneal_finite i) as [a ->].
  pose proof (draws_finite (H * W) laws g) as Hf.
  rewrite Forall_forall in Hf.
  specialize (Hf (nth k (fst (draws g (H * W))) NaN)).
  destruct (nth k (fst (draws g (H * W))) NaN) eqn:E.
  - simpl. eauto.
  - exfalso. assert (Float.is_finite PInf = true); [|discriminate].
    apply Hf. rewrite <- E. apply nth_In. now rewrite draws_length.
  - exfalso. assert (Float.is_finite NInf = true); [|discriminate].
    apply Hf. rewrite <- E. apply nth_In. now rewrite draws_length.
  - exfalso. assert (Float.is_finite NaN = true); [|discriminate].
    apply Hf. rewrite <- E. apply nth_In. now rewrite draws_length.
Qed.

(** The noisy minimum is a cell that has not been chosen, as long as one
    is left. *)
Lemma noisy_point_not_chosen g e i y x g' :
  shaped H W e ->
  (exists y0 x0, y0 < H /\ x0 < W /\ get e y0 x0 <> PInf) ->
  noisy_point g e (Fin q) i N = Ok (y, x, g') ->
  get e y x <> PInf.
Proof.
  intros He (y0 & x0 & Hy0 & Hx0 & Hfree) E.
  destruct (noisy_point_inv _ _ _ _ _ _ _ _ _ He E) as (j & Hj & Hjr & -> & ->).
  pose proof (energy_with_noise_shape importance (Fin q) N g e i He)
    as (Hr & Hc & Hs).
  destruct He as (Her & Hec & Hes).
  assert (Hk0 : y0 * W + x0 < H * W) by now apply flat_lt.
  pose proof (@argmin_not_pinf _ j (y0 * W + x0) Hj) as Hsel.
  unfold shape_ok in Hs. rewrite Hs, Hr, Hc in Hsel.
  specialize (Hsel Hk0).
  rewrite !(energy_with_noise_nth importance (Fin q) N g e i)
    in Hsel by (repeat split; auto).
  destruct (noise_finite g i (y0 * W + x0) Hk0) as [z0 Hz0].
  destruct (noise_finite g i j Hjr) as [z Hz].
  rewrite Hz0, Hz in Hsel.
  unfold get, flat_index in *. rewrite Hec in *. rewrite flat_unravel.
  intros Hj'. apply Hsel.
  - now apply FloatFacts.add_fin_not_pinf.
  - rewrite Hj'. reflexivity.
Qed.

Lemma NoDup_snoc (A : Type) (l : list A) a :
  NoDup l -> ~ In a l -> NoDup (l ++ [a]).
Proof.
  induction l as [|b l IH]; intros Hn Ha; simpl.
  - repeat constructor; auto.
  - inversion Hn as [|? ? Hb Hn']; subst. constructor.
    + rewrite in_app_iff. simpl. intros [? | [? | []]]; auto.
      subst. apply Ha. now left.
    + apply IH; auto. intros Hin. apply Ha. now right.
Qed.

Lemma iteration_distinct i st st' :
  well_shaped H W i st -> chosen_are_infinite H W st ->
  marks_are_samples H W st -> distinct_marks st ->
  i < H * W ->
  body i st = Ok st' -> distinct_marks st'.
Proof.
  intros (He & (Hs1 & Hs2 & Hs3) & Hl & Hg) Hc Hm [Hnd Hcount] Hi E.
  destruct (iteration_inv _ _ _ _ _ _ _ E) as (y & x & g & Hsel & ->).
  destruct (selection_in_grid _ _ _ _ _ _ _ _ He Hsel) as [Hy Hx].
  assert (Hnew : ~ In (y, x) (locations (samples st))).
  { destruct (i =? 0) eqn:Ei.
    - apply Nat.eqb_eq in Ei. rewrite Ei in Hl.
      apply length_zero_iff_nil in Hl. rewrite Hl. simpl. tauto.
    - rewrite <- (Hc y x Hy Hx).
      eapply noisy_point_not_chosen; eauto.
      destruct (free_cell H W (locations (samples st)))
        as (y0 & x0 & Hy0 & Hx0 & Hout); auto.
      { unfold locations. rewrite length_map. lia. }
      exists y0, x0. repeat split; auto. now rewrite (Hc y0 x0 Hy0 Hx0). }
  split; simpl.
  - rewrite locations_snoc. now apply NoDup_snoc.
  - rewrite length_app. simpl. rewrite Nat.add_1_r, <- Hcount.
    unfold count_marks, set. simpl. apply filter_update_count.
    + unfold flat_index. rewrite Hs3, Hs1, Hs2. now apply flat_lt.
    + destruct (Hm y x Hy Hx) as [_ Hout]. unfold get in Hout.
      rewrite (Hout Hnew). reflexivity.
    + reflexivity.
Qed.

End Distinct.

(** * Running the loop *)

Section ForRange.
Context {np : NumPy}.
Variable body : nat -> loop_state -> result loop_state.
Variable P : nat -> loop_state -> Prop.

Lemma for_range_invariant n : forall i st st',
  (forall j s s', i <= j < i + n -> P j s -> body j s = Ok s' -> P (S j) s') ->
  P i st -> for_range body i n st = Ok st' -> P (i + n) st'.
Proof.
  induction n as [|n IH]; intros i st st' Hstep Hi E; simpl in E.
  - injection E as <-. now rewrite Nat.add_0_r.
  - destruct (body i st) as [s|] eqn:Es; simpl in E; [|discriminate].
    replace (i + S n) with (S i + n) by lia.
    apply (IH (S i) s); auto.
    + intros j s1 s2 Hj. apply Hstep. lia.
    + apply (Hstep i st s); auto. lia.
Qed.

Lemma for_range_total n : forall i st,
  (forall j s s', i <= j < i + n -> P j s -> body j s = Ok s' -> P (S j) s') ->
  (forall j s, i <= j < i + n -> P j s -> exists s', body j s = Ok s') ->
  P i st -> exists st', for_range body i n st = Ok st'.
Proof.
  induction n as [|n IH]; intros i st Hstep Htot Hi; simpl.
  - eauto.
  - destruct (Htot i st) as [s Es]; auto; [lia|].
    rewrite Es. simpl. apply IH.
    + intros j s1 s2 Hj. apply Hstep. lia.
    + intros j s1 Hj. apply Htot. lia.
    + apply (Hstep i st s); auto. lia.
Qed.

End ForRange.

Section InitialState.
Context {np : NumPy}.
Variables (importance : ndarray) (content_bias : float) (g : rng_state).
Hypothesis importance_shape : shape_ok importance.

Local Abbreviation H := (nrows importance).
Local Abbreviation W := (ncols importance).
Local Abbreviation st0 := (initial_state g importance content_bias).

Lemma full_shaped h w v : shaped h w (full h w v).
Proof.
  unfold shaped, shape_ok, full; simpl. now rewrite repeat_length.
Qed.

Lemma get_full h w v y x : y < h -> x < w -> get (full h w v) y x = v.
Proof.
  intros Hy Hx. unfold get, full, flat_index; simpl.
  apply (repeat_spec (h * w)). apply nth_In.
  rewrite repeat_length. now apply flat_lt.
Qed.

Lemma initial_well_shaped : well_shaped H W 0 st0.
Proof.
  unfold well_shaped, initial_state; simpl. repeat split; auto.
  - unfold shape_ok; simpl. now rewrite length_map.
  - unfold shape_ok; simpl. now rewrite repeat_length.
Qed.

Lemma initial_marks : marks_are_samples H W st0.
Proof.
  intros y x Hy Hx. simpl. split; [tauto|].
  intros _. now apply get_full.
Qed.

Lemma count_marks_full h w : count_marks (full h w Float.one) = 0.
Proof.
  unfold count_marks, full; simpl.
  induction (h * w) as [|n IH]; simpl; auto.
Qed.

Lemma initial_distinct : distinct_marks st0.
Proof.
  split; simpl; [constructor | apply count_marks_full].
Qed.

(** With a finite importance and a finite bias no energy is infinite
    before the loop. *)
Lemma initial_chosen c :
  all_finite importance -> content_bias = Fin c ->
  chosen_are_infinite H W st0.
Proof.
  intros Hfin -> y x Hy Hx. simpl. split; [|tauto].
  unfold get, flat_index; simpl.
  rewrite nth_map_float by (rewrite importance_shape; now apply flat_lt).
  unfold all_finite in Hfin. rewrite Forall_forall in Hfin.
  assert (Hc : Float.is_finite (nth (y * W + x) (cells importance) NaN) = true).
  { apply Hfin, nth_In. rewrite importance_shape. now apply flat_lt. }
  destruct (nth (y * W + x) (cells importance) NaN); simpl in *; discriminate.
Qed.

End InitialState.

(** * Without noise *)

Section Noiseless.
Context {np : NumPy}.
Variables (importance K : ndarray) (N : Z).
Hypothesis laws : NumPyLaws np.
Hypothesis N_nonzero : N <> 0%Z.

Local Abbreviation H := (nrows importance).
Local Abbreviation W := (ncols importance).
Local Abbreviation body := (iteration importance K (Fin 0) N).

Lemma Forall2_of_nth (R : float -> float -> Prop) l1 : forall l2,
  length l1 = length l2 ->
  (forall k, k < length l1 -> R (nth k l1 NaN) (nth k l2 NaN)) ->
  Forall2 R l1 l2.
Proof.
  induction l1 as [|a l1 IH]; intros [|b l2] Hl Hn; simpl in *;
    try discriminate; constructor.
  - apply (Hn 0). lia.
  - apply IH; [lia|]. intros k Hk. apply (Hn (S k)). lia.
Qed.

(** With a noise scale of 0 the perturbed copy equals the energy. *)
Lemma noiseless_copy g e i :
  shaped H W e ->
  Forall2 Float.equiv (cells (fst (energy_with_noise g e (Fin 0) i N)))
          (cells e).
Proof.
  intros He.
  pose proof (energy_with_noise_shape importance (Fin 0) N g e i He)
    as (Hr & Hc & Hs).
  pose proof He as (Her & Hec & Hes).
  unfold shape_ok in *. apply Forall2_of_nth; [congruence|].
  intros k Hk. rewrite Hs, Hr, Hc in Hk.
  rewrite (energy_with_noise_nth importance (Fin 0) N g e i) by auto.
  destruct (anneal_finite N N_nonzero i) as [a ->].
  pose proof (draws_finite (H * W) laws g) as Hf.
  rewrite Forall_forall in Hf.
  assert (Hd : Float.is_finite (nth k (fst (draws g (H * W))) NaN) = true).
  { apply Hf, nth_In. now rewrite draws_length. }
  destruct (nth k (fst (draws g (H * W))) NaN) as [r| | |];
    try discriminate.
  simpl Float.mul. apply FloatFacts.add_zero_equiv. ring.
Qed.

Lemma noisy_point_noiseless g e i :
  shaped H W e ->
  noisy_point g e (Fin 0) i N
  = (j <- argmin e ;;
     Ok (j / W, j mod W, snd (energy_with_noise g e (Fin 0) i N))).
Proof.
  intros He.
  pose proof (energy_with_noise_shape importance (Fin 0) N g e i He)
    as (Hr & Hc & Hs).
  pose proof (noiseless_copy g e i He) as Heq.
  unfold noisy_point.
  destruct (energy_with_noise g e (Fin 0) i N) as [ewn g']. simpl in *.
  rewrite (argmin_equiv _ _ Heq).
  destruct (argmin e); simpl; auto. now rewrite Hc.
Qed.

Lemma iteration_noiseless i st1 st2 :
  visible st1 = visible st2 -> shaped H W (energy st1) ->
  agree visible (body i st1) (body i st2).
Proof.
  unfold visible. intros E He.
  injection E as Ee Es El.
  unfold iteration. rewrite <- Ee, <- Es, <- El.
  destruct (i =? 0).
  - destruct (first_point (energy st1)) as [[y x]|]; simpl; auto.
  - rewrite !noisy_point_noiseless by assumption.
    destruct (argmin (energy st1)); simpl; auto.
Qed.

End Noiseless.

(** * The importance map *)

Section ImportanceFacts.
Context {np : NumPy}.
Hypothesis laws : NumPyLaws np.
Local Open Scope float_scope.

Lemma fon_fin q : fin_or_nan (Fin q).
Proof. reflexivity. Qed.

Lemma fon_add a b : fin_or_nan a -> fin_or_nan b -> fin_or_nan (a + b).
Proof. unfold fin_or_nan. destruct a, b; simpl; intros; auto. Qed.

Lemma fon_sub a b : fin_or_nan a -> fin_or_nan b -> fin_or_nan (a - b).
Proof. unfold fin_or_nan. destruct a, b; simpl; intros; auto. Qed.

Lemma fon_mul a b : fin_or_nan a -> fin_or_nan b -> fin_or_nan (a * b).
Proof.
  unfold fin_or_nan. destruct a, b; simpl; intros; auto; discriminate.
Qed.

Lemma fon_if (c : bool) a b :
  fin_or_nan a -> fin_or_nan b -> fin_or_nan (if c then a else b).
Proof. destruct c; auto. Qed.

Lemma fon_minimum a b :
  fin_or_nan a -> fin_or_nan b -> fin_or_nan (Float.minimum a b).
Proof.
  unfold Float.minimum. intros Ha Hb.
  destruct (Float.is_nan a), (Float.is_nan b), (Float.leb a b); auto.
Qed.

Lemma finite_maximum a b :
  Float.is_finite a = true -> Float.is_finite b = true ->
  Float.is_finite (Float.maximum a b) = true.
Proof.
  unfold Float.maximum. intros Ha Hb.
  destruct (Float.is_nan a), (Float.is_nan b), (Float.geb a b); auto.
Qed.

(** A Gaussian weight is finite, or NaN when its argument is 0/0. *)
Lemma fon_gaussian a s :
  Float.is_finite a = true ->
  fin_or_nan (np_exp (minus_half * Float.square (a / Fin s))).
Proof.
  destruct a as [x| | |]; try discriminate. intros _.
  unfold Float.div. destruct (Qeq_bool s 0).
  - destruct (Float.Qsgn x); simpl.
    + now rewrite (exp_nan laws).
    + now rewrite (exp_ninf laws).
    + now rewrite (exp_ninf laws).
  - simpl. destruct (exp_finite laws (- (1 # 2) * (x / s * (x / s)))) as [r ->].
    reflexivity.
Qed.

Lemma raw_importance_fon p v :
  params_finite p -> fin_or_nan (raw_importance p (Fin v)).
Proof.
  destruct p as [ed dt lt ds ls mc ms mb].
  intros (H1 & H2 & H3 & H4 & H5 & H6 & H7 & H8); simpl in *.
  destruct ed as [ed| | |]; try discriminate.
  destruct dt as [dt| | |]; try discriminate.
  destruct lt as [lt| | |]; try discriminate.
  destruct ds as [ds| | |]; try discriminate.
  destruct ls as [ls| | |]; try discriminate.
  destruct mc as [mc| | |]; try discriminate.
  destruct ms as [ms| | |]; try discriminate.
  destruct mb as [mb| | |]; try discriminate.
  unfold raw_importance. cbv zeta. cbn [extreme_downweight dark_threshold
    light_threshold dark_sigma light_sigma mid_tone_center mid_tone_sigma
    mid_tone_boost].
  repeat first
    [ apply fon_mul | apply fon_add | apply fon_sub | apply fon_if
    | apply fon_minimum | apply fon_fin
    | apply fon_gaussian; try apply finite_maximum; reflexivity ].
Qed.

(** The running minimum is NaN, or a finite lower bound of all cells. *)
Lemma fold_minimum_spec l : forall v,
  fin_or_nan v -> Forall fin_or_nan l ->
  fold_left Float.minimum l v = NaN
  \/ exists m, fold_left Float.minimum l v = Fin m
               /\ Forall (fun c => exists r, c = Fin r /\ (m <= r)%Q) (v :: l).
Proof.
  induction l as [|a l IH]; intros v Hv Hl; simpl.
  - destruct v as [x| | |]; try discriminate; auto.
    right. exists x. split; auto. constructor; auto.
    exists x. split; auto. apply Qle_refl.
  - inversion Hl as [|? ? Ha Hl']; subst.
    destruct (IH (Float.minimum v a)) as [E | (m & E & F)]; auto.
    { now apply fon_minimum. }
    right. exists m. split; auto.
    inversion F as [|? ? (r & Er & Hr) F']; subst.
    destruct v as [x| | |]; try discriminate;
      destruct a as [z| | |]; try discriminate.
    unfold Float.minimum in Er; simpl in Er.
    destruct (Qle_bool x z) eqn:Hxz; injection Er as <-.
    + apply Qle_bool_iff in Hxz.
      constructor; [eauto|]. constructor; auto.
      exists z. split; auto. eapply Qle_trans; eauto.
    + assert (z <= x)%Q.
      { destruct (Qlt_le_dec z x) as [Hlt | Hle]; [now apply Qlt_le_weak|].
        apply Qle_bool_iff in Hle. congruence. }
      constructor; [|constructor; eauto].
      exists x. split; auto. eapply Qle_trans; eauto.
Qed.

Lemma fold_maximum_spec l : forall v,
  fin_or_nan v -> Forall fin_or_nan l ->
  fold_left Float.maximum l v = NaN
  \/ exists m, fold_left Float.maximum l v = Fin m
               /\ Forall (fun c => exists r, c = Fin r /\ (r <= m)%Q) (v :: l).
Proof.
  induction l as [|a l IH]; intros v Hv Hl; simpl.
  - destruct v as [x| | |]; try discriminate; auto.
    right. exists x. split; auto. constructor; auto.
    exists x. split; auto. apply Qle_refl.
  - inversion Hl as [|? ? Ha Hl']; subst.
    assert (Hm : fin_or_nan (Float.maximum v a)).
    { unfold Float.maximum.
      destruct (Float.is_nan v), (Float.is_nan a), (Float.geb v a); auto. }
    destruct (IH (Float.maximum v a)) as [E | (m & E & F)]; auto.
    right. exists m. split; auto.
    inversion F as [|? ? (r & Er & Hr) F']; subst.
    destruct v as [x| | |]; try discriminate;
      destruct a as [z| | |]; try discriminate.
    unfold Float.maximum, Float.geb in Er; simpl in Er.
    destruct (Qle_bool z x) eqn:Hxz; injection Er as <-.
    + apply Qle_bool_iff in Hxz.
      constructor; [eauto|]. constructor; auto.
      exists z. split; auto. eapply Qle_trans; eauto.
    + assert (x <= z)%Q.
      { destruct (Qlt_le_dec x z) as [Hlt | Hle]; [now apply Qlt_le_weak|].
        apply Qle_bool_iff in Hle. congruence. }
      constructor; [|constructor; eauto].
      exists x. split; auto. eapply Qle_trans; eauto.
Qed.

Lemma normalised_in_unit r m M :
  (m <= r)%Q -> (r <= M)%Q -> (m < M)%Q ->
  Float.in_unit ((Fin r - Fin m) / (Fin M - Fin m)).
Proof.
  intros H1 H2 H3. simpl.
  destruct (Qeq_bool (M + - m) 0) eqn:E.
  - apply Qeq_bool_eq in E. exfalso. lra.
  - simpl. split.
    + apply Qle_shift_div_l; lra.
    + apply Qle_shift_div_r; lra.
Qed.

End ImportanceFacts.

(** * The reference instance *)

Module ReferenceFacts.
Import Reference.

Lemma laws : NumPyLaws numpy.
Proof.
  constructor; simpl.
  - intros q. unfold exp. destruct (Qle_bool 0 q); eauto.
  - reflexivity.
  - reflexivity.
  - intros q Hq. unfold sqrt. apply Qle_bool_iff in Hq. rewrite Hq. eauto.
  - reflexivity.
Qed.

Lemma importance4_shape : shape_ok importance4.
Proof. reflexivity. Qed.

Lemma importance4_unit : Forall Float.in_unit (cells importance4).
Proof. repeat constructor; simpl; unfold Qle; simpl; lia. Qed.

Lemma importance4_finite : all_finite importance4.
Proof. repeat constructor. Qed.

End ReferenceFacts.

(** * Whole calls *)

Section Calls.
Context {np : NumPy}.
Variable importance : ndarray.
Hypothesis importance_shape : shape_ok importance.

Local Abbreviation H := (nrows importance).
Local Abbreviation W := (ncols importance).

Lemma loop_returns K nsf N st0 n :
  n = 0 \/ 4 <= Nat.min H W ->
  well_shaped H W 0 st0 ->
  exists st, for_range (iteration importance K nsf N) 0 n st0 = Ok st
             /\ well_shaped H W n st.
Proof.
  intros Hn H0.
  destruct (for_range_total (iteration importance K nsf N)
              (well_shaped H W) n 0 st0) as [st Est]; auto.
  - intros j s s' _. apply iteration_well_shaped.
  - intros j s Hj Hs. apply iteration_total; auto.
    destruct Hn; [lia | assumption].
  - exists st. split; auto.
    apply (for_range_invariant (iteration importance K nsf N)
             (well_shaped H W) n 0 st0 st); auto.
    intros j s s' _. apply iteration_well_shaped.
Qed.

Lemma loop_raises K nsf N st0 n :
  Nat.min H W <= 3 -> 0 < n -> well_shaped H W 0 st0 ->
  for_range (iteration importance K nsf N) 0 n st0
  = Raise ValueError_argmin_empty.
Proof.
  intros Hmin Hn ((Hr & Hc & _) & _).
  destruct n as [|n]; [lia|]. simpl. unfold iteration. simpl.
  rewrite first_point_small by (rewrite Hr, Hc; assumption).
  reflexivity.
Qed.

Lemma num_points_fin p :
  num_points H W (Fin p)
  = Ok (Float.Qtrunc (inject_Z (Z.of_nat H * Z.of_nat W) * p)).
Proof. reflexivity. Qed.

Lemma cells_nonpos p :
  (p <= 0)%Q -> (inject_Z (Z.of_nat H * Z.of_nat W) * p <= 0)%Q.
Proof.
  intros Hp.
  assert (0 <= inject_Z (Z.of_nat H * Z.of_nat W))%Q.
  { change 0%Q with (inject_Z 0). rewrite <- Zle_Qle. lia. }
  nra.
Qed.

(** A call returns when the grid is large enough for the first window, or
    when there is nothing to place. *)
Lemma call_returns g0 p s cb nsf seed :
  4 <= Nat.min H W \/ (p <= 0)%Q ->
  exists st,
    void_and_cluster g0 importance (Fin p) (Fin s) cb nsf seed
    = Ok (stipple_image st, samples st, generator st)
    /\ length (samples st)
       = Z.to_nat (Qfloor (inject_Z (Z.of_nat H * Z.of_nat W) * p))
    /\ ((p <= 0)%Q -> st = initial_state (seeded g0 seed) importance cb).
Proof.
  intros Hcase. unfold void_and_cluster.
  rewrite num_points_fin, repulsion_kernel_fin. cbn [bind].
  set (N := Float.Qtrunc (inject_Z (Z.of_nat H * Z.of_nat W) * p)).
  set (K := map_array _ _).
  set (st0 := initial_state (seeded g0 seed) importance cb).
  assert (Hn : Z.to_nat N = 0 \/ 4 <= Nat.min H W).
  { destruct Hcase as [? | Hp]; auto. left.
    pose proof (FloatFacts.Qtrunc_nonpos (cells_nonpos p Hp)). subst N. lia. }
  destruct (loop_returns K nsf N st0 (Z.to_nat N) Hn) as (st & Est & Hst).
  { apply initial_well_shaped, importance_shape. }
  rewrite Est. cbn [bind]. exists st. split; auto. split.
  - destruct Hst as (_ & _ & Hl & _). rewrite Hl. subst N.
    apply FloatFacts.to_nat_Qtrunc.
  - intros Hp.
    pose proof (FloatFacts.Qtrunc_nonpos (cells_nonpos p Hp)) as HN.
    fold N in HN. replace (Z.to_nat N) with 0 in Est by lia.
    simpl in Est. congruence.
Qed.

End Calls.

(** * The properties *)

(** C10.  On a grid with [min(H, W) <= 3] the first-iteration search radius
    [min(H, W) // 4] is 0, the window around the centre is empty and the
    first-point selection raises ([np.argmin] of an empty array), so a call
    that has at least one point to place raises too; the first-point
    selection returns a point exactly when [min(H, W) >= 4]. *)
Theorem first_point_needs_four `{NumPy} (g0 : rng_state) (importance : ndarray)
        (percentage : float) (s : Q) (content_bias noise_scale_factor : float)
        (seed : option Z) (n : Z) :
  shape_ok importance ->
  Nat.min (nrows importance) (ncols importance) <= 3 ->
  num_points (nrows importance) (ncols importance) percentage = Ok n ->
  (1 <= n)%Z ->
  (Z.min (Z.of_nat (nrows importance)) (Z.of_nat (ncols importance)) / 4 = 0)%Z
  /\ first_point (energy (initial_state (seeded g0 seed) importance content_bias))
     = Raise ValueError_argmin_empty
  /\ void_and_cluster g0 importance percentage (Fin s) content_bias
                      noise_scale_factor seed
     = Raise ValueError_argmin_empty
  /\ forall e, (exists y x, first_point e = Ok (y, x))
               <-> 4 <= Nat.min (nrows e) (ncols e).
Proof.
  intros Hshape Hmin Hn Hpos. repeat split.
  - apply Z.div_small. lia.
  - now apply first_point_small.
  - unfold void_and_cluster. rewrite Hn, repulsion_kernel_fin. cbn [bind].
    rewrite loop_raises; auto; [lia|].
    now apply initial_well_shaped.
  - intros (y & x & E).
    destruct (le_lt_dec (Nat.min (nrows e) (ncols e)) 3) as [Hs | Hl]; [|lia].
    rewrite first_point_small in E by assumption. discriminate.
  - intros Hl. destruct (first_point_large e Hl) as (y & x & E & _). eauto.
Qed.

Lemma first_point_needs_four_witness :
  @void_and_cluster Reference.numpy 0%Z Reference.importance2 (Fin (1 # 2))
                   (Fin (9 # 10)) (Fin (9 # 10)) (Fin (1 # 10)) (Some 0%Z)
  = Raise ValueError_argmin_empty.
Proof.
  refine (proj1 (proj2 (proj2
    (@first_point_needs_four Reference.numpy 0%Z
       Reference.importance2 (Fin (1 # 2)) (9 # 10) (Fin (9 # 10))
       (Fin (1 # 10)) (Some 0%Z) 2%Z _ _ _ _)))).
  - reflexivity.
  - simpl; lia.
  - reflexivity.
  - lia.
Defined.




(** C3.  With a seed given, a call does not depend on the state the
    generator was in: two calls with the same arguments and the same seed
    return the same stipple grid and the same sample sequence (and leave the
    generator in the same state). *)
Theorem seeded_calls_identical `{NumPy} (g1 g2 : rng_state)
        (importance : ndarray)
        (percentage sigma content_bias noise_scale_factor : float) (seed : Z) :
  void_and_cluster g1 importance percentage sigma content_bias
                   noise_scale_factor (Some seed)
  = void_and_cluster g2 importance percentage sigma content_bias
                     noise_scale_factor (Some seed).
Proof. reflexivity. Qed.

(** Without a seed the result does depend on the generator's state. *)
Example unseeded_calls_differ :
  outputs (@void_and_cluster Reference.numpy 0%Z Reference.importance4
             (Fin (1 # 8)) (Fin (9 # 10)) (Fin (9 # 10)) (Fin (1 # 10)) None)
  <> outputs (@void_and_cluster Reference.numpy 2%Z Reference.importance4
                (Fin (1 # 8)) (Fin (9 # 10)) (Fin (9 # 10)) (Fin (1 # 10)) None).
Proof. vm_compute. discriminate. Qed.

(** ** The kernel's size *)

Section KernelSize.
Context {np : NumPy}.
Local Open Scope Q_scope.

Lemma repulsion_kernel_side s :
  exists K k,
    repulsion_kernel (Fin s) = Ok K
    /\ kernel_size (Fin s) = Ok k
    /\ Z.odd k = true
    /\ nrows K = Z.to_nat k /\ ncols K = Z.to_nat k /\ shape_ok K.
Proof.
  rewrite repulsion_kernel_fin, kernel_size_fin. cbv zeta.
  set (t := (Float.Qtrunc (inject_Z 6 * s) + 1)%Z).
  destruct (next_odd_spec t) as (Hodd & _).
  set (k := if (t mod 2 =? 0)%Z then (t + 1)%Z else t) in *.
  do 2 eexists. split; [reflexivity|]. split; [reflexivity|].
  split; [exact Hodd|].
  unfold map_array. cbn [nrows ncols].
  rewrite kernel_nrows, kernel_ncols, (odd_size_kept k Hodd).
  repeat split.
  unfold shape_ok. cbn [cells nrows ncols]. rewrite length_map.
  rewrite <- (odd_size_kept k Hodd) at 2 3.
  rewrite <- kernel_nrows with (sigma := Fin s) at 1.
  rewrite <- kernel_ncols with (sigma := Fin s).
  apply kernel_shape_ok.
Qed.

Lemma kernel_size_positive s k :
  0 < s -> kernel_size (Fin s) = Ok k ->
  smallest_odd_geq (inject_Z (Qfloor (6 * s) + 1)) k /\ (1 <= k)%Z.
Proof.
  intros Hs E. rewrite kernel_size_fin in E. injection E as <-. cbv zeta.
  assert (H6 : 0 <= inject_Z 6 * s) by (change (inject_Z 6) with 6; lra).
  rewrite (FloatFacts.Qtrunc_nonneg H6).
  change (inject_Z 6) with 6.
  set (t := (Qfloor (6 * s) + 1)%Z).
  destruct (next_odd_spec t) as (Hodd & Hle & Hmin).
  assert (Ht : (1 <= t)%Z).
  { assert (0 <= Qfloor (6 * s))%Z; [|subst t; lia].
    change 0%Z with (Qfloor (inject_Z 0)). apply Qfloor_resp_le. exact H6. }
  split; [|lia].
  repeat split; auto.
  - rewrite <- Zle_Qle. exact Hle.
  - intros m Hm Hq. apply Hmin; auto. now rewrite Zle_Qle.
Qed.

Lemma kernel_size_nonpositive s k :
  s <= 0 -> kernel_size (Fin s) = Ok k ->
  (- (1 # 3) < s -> k = 1%Z) /\ (s <= - (1 # 3) -> (k <= 0)%Z).
Proof.
  intros Hs E. rewrite kernel_size_fin in E. injection E as <-. cbv zeta.
  assert (H6 : inject_Z 6 * s <= 0) by (change (inject_Z 6) with 6; lra).
  rewrite (Qtrunc_opp _ H6).
  change (inject_Z 6) with 6.
  set (f := Qfloor (- (6 * s))).
  assert (Hf : (0 <= f)%Z).
  { change 0%Z with (Qfloor (inject_Z 0)). apply Qfloor_resp_le.
    change (inject_Z 0) with 0. lra. }
  destruct (next_odd_spec (- f + 1)) as (Hodd & Hle & Hmin).
  set (k := if ((- f + 1) mod 2 =? 0)%Z then (- f + 1 + 1)%Z else (- f + 1)%Z)
    in *.
  split.
  - intros Hgt. assert (Hf1 : (f <= 1)%Z) by (apply Qfloor_lt_2; lra).
    assert (Hk1 : (k <= 1)%Z) by (apply Hmin; [reflexivity | lia]).
    assert (k <> 0%Z) by (intros Hk0; rewrite Hk0 in Hodd; discriminate).
    lia.
  - intros Hle3. assert (Hf2 : (2 <= f)%Z) by (apply Qfloor_ge_2; lra).
    subst k. destruct ((- f + 1) mod 2 =? 0)%Z; lia.
Qed.

End KernelSize.







(** ** Independence of the seed without noise *)

Lemma for_range_noiseless {np : NumPy} (importance K : ndarray) (N : Z) n :
  NumPyLaws np -> (0 < n -> N <> 0%Z) ->
  forall i st1 st2,
    visible st1 = visible st2 ->
    well_shaped (nrows importance) (ncols importance) i st1 ->
    agree visible (for_range (iteration importance K (Fin 0) N) i n st1)
          (for_range (iteration importance K (Fin 0) N) i n st2).
Proof.
  intros laws. induction n as [|n IH]; intros HN i st1 st2 E Hw; simpl.
  - exact E.
  - assert (HN' : N <> 0%Z) by (apply HN; lia).
    pose proof (iteration_noiseless importance K N laws HN' i st1 st2 E
                  (proj1 Hw)) as Hstep.
    destruct (iteration importance K (Fin 0) N i st1) as [a|e1] eqn:E1;
      destruct (iteration importance K (Fin 0) N i st2) as [b|e2] eqn:E2;
      simpl in *; try contradiction; auto.
    apply IH; auto.
    eapply iteration_well_shaped; eauto.
Qed.



(** With noise the seed matters. *)
Example noise_depends_on_seed :
  outputs (@void_and_cluster Reference.numpy 0%Z Reference.importance4
             (Fin (1 # 8)) (Fin (9 # 10)) (Fin (9 # 10)) (Fin (1 # 10))
             (Some 0%Z))
  <> outputs (@void_and_cluster Reference.numpy 0%Z Reference.importance4
                (Fin (1 # 8)) (Fin (9 # 10)) (Fin (9 # 10)) (Fin (1 # 10))
                (Some 2%Z)).
Proof. vm_compute. discriminate. Qed.

(** ** The infinite cells of the energy grid *)


Lemma run_two_returns :
  returned (@run Reference.numpy 0%Z Reference.importance4 (Fin (1 # 4))
              (Fin (9 # 10)) (Fin (9 # 10)) (Fin (1 # 10)) (Some 0%Z) 2)
  = true.
Proof. vm_compute. reflexivity. Qed.


(** ** Distinct samples and the marks of the stipple grid *)

Section Marks.
Context {np : NumPy}.
Variables (H W : nat) (st : loop_state).
Hypothesis st_shape : shaped H W (stipple_image st).
Hypothesis st_marks : marks_are_samples H W st.

Lemma location_dec (p : nat * nat) (l : list (nat * nat)) : {In p l} + {~ In p l}.
Proof.
  apply in_dec. decide equality; apply Nat.eq_dec.
Qed.

Lemma marks_two_valued :
  Forall (fun v => v = Float.zero \/ v = Float.one) (cells (stipple_image st)).
Proof.
  destruct st_shape as (Hr & Hc & Hs).
  rewrite Forall_forall. intros v Hv.
  destruct (In_nth _ _ NaN Hv) as (k & Hk & <-).
  rewrite Hs, Hr, Hc in Hk.
  destruct (unravel_lt H W (k:=k) Hk) as [Hy Hx].
  destruct (st_marks (k / W) (k mod W) Hy Hx) as [Hin Hout].
  unfold get, flat_index in Hin, Hout. rewrite Hc, flat_unravel in Hin, Hout.
  destruct (location_dec (k / W, k mod W) (locations (samples st))); auto.
Qed.

Lemma mark_iff_sample y x :
  y < H -> x < W ->
  (get (stipple_image st) y x = Float.zero
   <-> In (y, x) (locations (samples st))).
Proof.
  intros Hy Hx. destruct (st_marks y x Hy Hx) as [Hin Hout].
  split; auto. intros Hz.
  destruct (location_dec (y, x) (locations (samples st))) as [Hl | Hn]; auto.
  rewrite (Hout Hn) in Hz. discriminate.
Qed.

End Marks.

Lemma unit_cells_finite (a : ndarray) :
  Forall Float.in_unit (cells a) -> all_finite a.
Proof.
  unfold all_finite. apply Forall_impl. intros [q| | |]; simpl; tauto.
Qed.

Lemma points_at_most_cells (H W : nat) (p : Q) :
  (p <= 1)%Q ->
  Z.to_nat (Float.Qtrunc (inject_Z (Z.of_nat H * Z.of_nat W) * p)) <= H * W.
Proof.
  intros Hp.
  assert (Hn : (0 <= Z.of_nat H * Z.of_nat W)%Z) by lia.
  assert (Hq : (0 <= inject_Z (Z.of_nat H * Z.of_nat W))%Q).
  { change 0%Q with (inject_Z 0). now rewrite <- Zle_Qle. }
  assert (Hle : (inject_Z (Z.of_nat H * Z.of_nat W) * p
                 <= inject_Z (Z.of_nat H * Z.of_nat W))%Q) by nra.
  pose proof (FloatFacts.Qtrunc_le_Z Hn Hle). lia.
Qed.


Lemma call_on_four_returns :
  returned (@void_and_cluster Reference.numpy 0%Z Reference.importance4
              (Fin (1 # 4)) (Fin (9 # 10)) (Fin (9 # 10)) (Fin (1 # 10))
              (Some 0%Z))
  = true.
Proof. vm_compute. reflexivity. Qed.


(** ** Normalisation of the importance *)

Section Normalisation.
Context {np : NumPy}.
Local Open Scope float_scope.

Lemma gtb_equiv a b : a =f= b -> Float.gtb b a = false.
Proof.
  unfold Float.gtb, Float.ltb.
  destruct a as [x| | |], b as [y| | |]; simpl; try tauto; auto.
  intros E. assert (Hle : (y <= x)%Q) by (rewrite E; apply Qle_refl).
  apply Qle_bool_iff in Hle. now rewrite Hle.
Qed.

Lemma fold_idempotent (f : float -> float -> float) w l :
  f w w = w -> Forall (eq w) l -> fold_left f l w = w.
Proof.
  intros Hf Hl. induction Hl as [|a l <- Hl IH]; simpl; auto.
  now rewrite Hf.
Qed.

Lemma minimum_idempotent a : Float.minimum a a = a.
Proof.
  unfold Float.minimum. destruct (Float.is_nan a), (Float.leb a a); auto.
Qed.

Lemma maximum_idempotent a : Float.maximum a a = a.
Proof.
  unfold Float.maximum. destruct (Float.is_nan a), (Float.geb a a); auto.
Qed.

Lemma gtb_finite mx mn :
  Float.gtb mx mn = true ->
  forall m M, mn = Fin m -> mx = Fin M -> (m < M)%Q.
Proof.
  intros Hg m M -> ->. unfold Float.gtb, Float.ltb in Hg. simpl in Hg.
  destruct (Qle_bool M m) eqn:E; [discriminate|].
  destruct (Qlt_le_dec m M) as [Hlt | Hle]; auto.
  apply Qle_bool_iff in Hle. congruence.
Qed.

Lemma gtb_nan_l a : Float.gtb NaN a = false.
Proof. destruct a; reflexivity. Qed.

Lemma gtb_nan_r a : Float.gtb a NaN = false.
Proof. destruct a; reflexivity. Qed.

End Normalisation.



(** A constant 4x4 grid of brightness 0.5 gives the uniform importance 1.0. *)
Example importance_of_constant_grid :
  @compute_importance Reference.numpy default_params (full 4 4 (Fin (1 # 2)))
  = Ok (full 4 4 Float.one).
Proof. vm_compute. reflexivity. Qed.

(** ** Sums of contributions *)

Section Sums.
Local Open Scope float_scope.

Lemma add_compat a a' b b' : a =f= a' -> b =f= b' -> a + b =f= a' + b'.
Proof.
  destruct a, a', b, b'; simpl; try tauto.
  intros E1 E2. now rewrite E1, E2.
Qed.

Lemma add_assoc_equiv a b c : a + (b + c) =f= a + b + c.
Proof.
  destruct a, b, c; simpl; auto. apply Qplus_assoc.
Qed.

Lemma add_zero_l_equiv a : Float.zero + a =f= a.
Proof. destruct a; simpl; auto. apply Qplus_0_l. Qed.

Lemma add_zero_r_equiv a : a + Float.zero =f= a.
Proof. destruct a; simpl; auto. apply Qplus_0_r. Qed.

(** Adding the values one by one adds their sum. *)
Lemma fold_add_sum l : forall a, fold_left Float.add l a =f= a + fsum l.
Proof.
  unfold fsum. induction l as [|v l IH]; intros a; simpl.
  - apply FloatFacts.equiv_sym, add_zero_r_equiv.
  - eapply FloatFacts.equiv_trans; [apply IH|].
    eapply FloatFacts.equiv_trans; [apply FloatFacts.equiv_sym, add_assoc_equiv|].
    apply add_compat; [apply FloatFacts.equiv_refl|].
    apply FloatFacts.equiv_sym.
    eapply FloatFacts.equiv_trans; [apply IH|].
    apply add_compat; [apply add_zero_l_equiv | apply FloatFacts.equiv_refl].
Qed.

End Sums.

(** C9.  Accumulating the kernel at [(y, x)] adds to every energy cell, in
    the order of the two loops, the values of the kernel cells whose target
    [((y + row_offset) mod H, (x + col_offset) mod W)], with offsets taken
    from the kernel's centre, is that cell: the cell increases by exactly the
    sum of these values, and every kernel cell is added at its wrapped
    target, also when that lies across an edge of the grid. *)
Theorem accumulation_is_toroidal (H W : nat)
        (energy kernel : ndarray) (y x ty tx : nat) :
  shaped H W energy -> ty < H -> tx < W ->
  get (accumulate_kernel energy kernel y x) ty tx
  = fold_left Float.add (contributions H W kernel y x ty tx) (get energy ty tx)
  /\ get (accumulate_kernel energy kernel y x) ty tx
     =f= (get energy ty tx + fsum (contributions H W kernel y x ty tx))%float
  /\ shaped H W (accumulate_kernel energy kernel y x)
  /\ forall c, In c (kernel_cells kernel) ->
       in_grid H W (wrapped_target H W kernel y x c)
       /\ In (get kernel (fst c) (snd c))
             (contributions H W kernel y x
                (fst (wrapped_target H W kernel y x c))
                (snd (wrapped_target H W kernel y x c))).
Proof.
  intros He Hty Htx.
  assert (HH : 0 < H) by lia. assert (HW : 0 < W) by lia.
  pose proof (accumulate_get H W kernel y x HH HW energy ty tx He Hty Htx) as E.
  split; [exact E|]. split; [rewrite E; apply fold_add_sum|].
  split; [now apply accumulate_shaped|].
  intros c Hc. split.
  - now apply wrapped_target_in_grid.
  - unfold contributions.
    apply (in_map (fun c => get kernel (fst c) (snd c))).
    apply filter_In. split; [exact Hc|].
    unfold hits. now rewrite !Nat.eqb_refl.
Qed.

(** A 3x3 kernel centred at the corner (0, 0) of a 4x4 grid: its first cell,
    at offset (-1, -1), lands on the opposite corner (3, 3). *)
Lemma accumulation_is_toroidal_witness :
  contributions 4 4 (mk_ndarray 3 3 (map Fin [1; 2; 3; 4; 5; 6; 7; 8; 9]%Q))
                0 0 3 3 = [Fin 1]
  /\ get (accumulate_kernel
            (full 4 4 Float.zero)
            (mk_ndarray 3 3 (map Fin [1; 2; 3; 4; 5; 6; 7; 8; 9]%Q)) 0 0) 3 3
     = fold_left Float.add [Fin 1] (get (full 4 4 Float.zero) 3 3).
Proof.
  split.
  - reflexivity.
  - refine (proj1 (@accumulation_is_toroidal 4 4 (full 4 4 Float.zero)
                     (mk_ndarray 3 3 (map Fin [1; 2; 3; 4; 5; 6; 7; 8; 9]%Q))
                     0 0 3 3 _ _ _)).
    + repeat split.
    + lia.
    + lia.
Defined.

(** The same accumulation, cell by cell: the kernel's rows and columns
    before its centre wrap to the last row and column. *)
Example accumulation_at_corner :
  map (fun v => match v with Fin q => Qred q | _ => 0%Q end)
      (cells (accumulate_kernel
                (full 4 4 Float.zero)
                (mk_ndarray 3 3 (map Fin [1; 2; 3; 4; 5; 6; 7; 8; 9]%Q)) 0 0))
  = [5; 6; 0; 4;
     8; 9; 0; 7;
     0; 0; 0; 0;
     2; 3; 0; 1]%Q.
Proof. vm_compute. reflexivity. Qed.

(** With more points than cells the locations repeat ([percentage <= 1] is
    needed for distinct samples): on a 4x4 grid with percentage 17/16 the
    last of the 17 samples is (0, 0) again. *)
Example samples_repeat_beyond_one :
  match outputs (@void_and_cluster Reference.numpy 0%Z Reference.importance4
                   (Fin (17 # 16)) (Fin (1 # 10)) (Fin (9 # 10)) (Fin 0)
                   (Some 0%Z)) with
  | Ok (_, sample_sequence) =>
      length sample_sequence = 17
      /\ nth 1 (locations sample_sequence) (9, 9) = (0, 0)
      /\ nth 16 (locations sample_sequence) (9, 9) = (0, 0)
  | Raise _ => False
  end.
Proof. vm_compute. repeat split. Qed.

(** * Further properties of the core and of its callers *)

(** ** The order on floats and the minimum [np.argmin] finds *)

Section Order.
Import Float.

Lemma leb_refl a : is_nan a = false -> leb a a = true.
Proof.
  destruct a; simpl; try discriminate; auto.
  intros _. apply Qle_bool_iff, Qle_refl.
Qed.

Lemma ltb_fin x y : ltb (Fin x) (Fin y) = true <-> (x < y)%Q.
Proof.
  unfold ltb; simpl. destruct (Qle_bool y x) eqn:E; simpl.
  - apply Qle_bool_iff in E. split; [discriminate|].
    intros Hlt. exfalso. apply (Qlt_not_le _ _ Hlt E).
  - split; auto. intros _.
    destruct (Qlt_le_dec x y) as [Hlt | Hle]; auto.
    apply Qle_bool_iff in Hle. congruence.
Qed.

Lemma leb_fin x y : leb (Fin x) (Fin y) = true <-> (x <= y)%Q.
Proof. simpl. apply Qle_bool_iff. Qed.

Lemma ltb_leb a b : ltb a b = true -> leb a b = true.
Proof.
  destruct a as [x| | |], b as [y| | |]; try reflexivity; try discriminate.
  rewrite ltb_fin, leb_fin. apply Qlt_le_weak.
Qed.

Lemma ltb_leb_trans a b c : ltb a b = true -> leb b c = true -> ltb a c = true.
Proof.
  destruct a as [x| | |], b as [y| | |], c as [z| | |];
    try reflexivity; try discriminate.
  rewrite !ltb_fin, leb_fin. apply Qlt_le_trans.
Qed.

Lemma ltb_trans a b c : ltb a b = true -> ltb b c = true -> ltb a c = true.
Proof.
  intros Hab Hbc. apply (ltb_leb_trans a b c Hab). now apply ltb_leb.
Qed.

(** Without NaN, "not [>=]" is "[<]". *)
Lemma not_geb_ltb v mp :
  is_nan v = false -> is_nan mp = false -> geb v mp = false -> ltb v mp = true.
Proof.
  intros Hv Hmp Hg. unfold ltb, geb in *. now rewrite Hv, Hmp, Hg.
Qed.

(** The scan returns the old minimum's index when no cell is below it, and
    otherwise the first cell that is strictly below it and not above any
    other cell. *)
Lemma argmin_scan_minimal l : forall mp min_ind i,
  is_nan mp = false -> no_nan l -> min_ind < i ->
  let j := argmin_scan mp min_ind i l in
  (j = min_ind /\ Forall (fun v => leb mp v = true) l)
  \/ (i <= j < i + length l
      /\ ltb (nth (j - i) l NaN) mp = true
      /\ Forall (fun v => leb (nth (j - i) l NaN) v = true) l
      /\ forall k, k < j - i ->
           ltb (nth (j - i) l NaN) (nth k l NaN) = true).
Proof.
  induction l as [|v l IH]; intros mp min_ind i Hmp Hl Hlt; simpl.
  - left. split; auto.
  - inversion Hl as [|? ? Hv Hl']; subst.
    destruct (geb v mp) eqn:G; simpl.
    + destruct (IH mp min_ind (S i) Hmp Hl' ltac:(lia))
        as [[E F] | (B & Lt & F & Before)].
      * left. split; auto.
      * right.
        replace (argmin_scan mp min_ind (S i) l - i)
          with (S (argmin_scan mp min_ind (S i) l - S i)) by lia.
        cbn [nth]. split; [lia|]. split; [exact Lt|]. split.
        -- constructor; auto. apply ltb_leb.
           apply (ltb_leb_trans _ mp v Lt G).
        -- intros [|k] Hk; cbn [nth].
           ++ apply (ltb_leb_trans _ mp v Lt G).
           ++ apply Before. lia.
    + rewrite Hv.
      pose proof (not_geb_ltb v mp Hv Hmp G) as Lvmp.
      destruct (IH v i (S i) Hv Hl' ltac:(lia))
        as [[E F] | (B & Lt & F & Before)].
      * right. rewrite E, Nat.sub_diag. cbn [nth].
        split; [lia|]. split; [exact Lvmp|]. split.
        -- constructor; auto. now apply leb_refl.
        -- intros k Hk. lia.
      * right.
        replace (argmin_scan v i (S i) l - i)
          with (S (argmin_scan v i (S i) l - S i)) by lia.
        cbn [nth]. split; [lia|]. split; [apply (ltb_trans _ v mp Lt Lvmp)|].
        split.
        -- constructor; auto. now apply ltb_leb.
        -- intros [|k] Hk; cbn [nth]; [exact Lt|]. apply Before. lia.
Qed.

(** On an array without NaN, [np.argmin] returns the first index of a
    least cell. *)
Lemma argmin_first_least a j :
  no_nan (cells a) -> argmin a = Ok j ->
  j < length (cells a)
  /\ (forall k, k < length (cells a) ->
        leb (nth j (cells a) NaN) (nth k (cells a) NaN) = true)
  /\ (forall k, k < j ->
        ltb (nth j (cells a) NaN) (nth k (cells a) NaN) = true).
Proof.
  unfold argmin. destruct (cells a) as [|v l]; [discriminate|].
  intros Hn E. inversion Hn as [|? ? Hv Hl]; subst.
  rewrite Hv in E. injection E as <-.
  destruct (argmin_scan_minimal l v 0 1 Hv Hl ltac:(lia))
    as [[E F] | (B & Lt & F & Before)].
  - rewrite E. cbn [nth length]. split; [lia|]. split.
    + intros [|k] Hk; cbn [nth]; [now apply leb_refl|].
      rewrite Forall_forall in F. apply F, nth_In. simpl in Hk. lia.
    + intros k Hk. lia.
  - remember (argmin_scan v 0 1 l) as j eqn:Ej.
    destruct j as [|j]; [lia|].
    replace (S j - 1) with j in * by lia. cbn [nth length].
    split; [lia|]. split.
    + intros [|k] Hk; cbn [nth]; [now apply ltb_leb|].
      rewrite Forall_forall in F. apply F, nth_In. simpl in Hk. lia.
    + intros [|k] Hk; cbn [nth]; [exact Lt|]. apply Before. lia.
Qed.

End Order.

(** ** What every call returns *)

Section Recorded.
Context {np : NumPy}.
Variables (importance K : ndarray) (nsf : float) (N : Z).

Local Abbreviation H := (nrows importance).
Local Abbreviation W := (ncols importance).
Local Abbreviation body := (iteration importance K nsf N).

Lemma for_range_app (f : nat -> loop_state -> result loop_state) a : forall b i st,
  for_range f i (a + b) st
  = (st' <- for_range f i a st ;; for_range f (i + a) b st').
Proof.
  induction a as [|a IH]; intros b i st; simpl.
  - now rewrite Nat.add_0_r.
  - destruct (f i st) as [s|e]; simpl; auto.
    rewrite IH. now replace (S i + a) with (i + S a) by lia.
Qed.

Lemma iteration_appends i st st' :
  shaped H W (energy st) -> body i st = Ok st' ->
  exists y x,
    samples st' = samples st ++ [(y, x, get importance y x)]
    /\ y < H /\ x < W.
Proof.
  intros He E.
  destruct (iteration_inv _ _ _ _ _ _ _ E) as (y & x & g & Hsel & ->).
  destruct (selection_in_grid _ _ _ _ _ _ _ _ He Hsel) as [Hy Hx].
  exists y, x. simpl. auto.
Qed.

Lemma for_range_extends n : forall i st st',
  well_shaped H W i st -> for_range body i n st = Ok st' ->
  exists more, samples st' = samples st ++ more /\ length more = n.
Proof.
  induction n as [|n IH]; intros i st st' Hw E; simpl in E.
  - injection E as <-. exists []. now rewrite app_nil_r.
  - destruct (body i st) as [s|] eqn:Es; simpl in E; [|discriminate].
    destruct (iteration_appends i st s (proj1 Hw) Es) as (y & x & Hs & _).
    destruct (IH (S i) s st') as (more & Hm & Hl); auto.
    { eapply iteration_well_shaped; eauto. }
    exists ((y, x, get importance y x) :: more).
    rewrite Hm, Hs, <- app_assoc. simpl. auto.
Qed.

Lemma iteration_recorded i st st' :
  shaped H W (energy st) ->
  Forall (fun s => snd s = get importance (fst (fst s)) (snd (fst s)))
         (samples st) ->
  body i st = Ok st' ->
  Forall (fun s => snd s = get importance (fst (fst s)) (snd (fst s)))
         (samples st').
Proof.
  intros He Hr E.
  destruct (iteration_appends i st st' He E) as (y & x & -> & _).
  apply Forall_app. split; auto.
Qed.

End Recorded.

(** X3 (void_and_cluster).  Whatever its arguments, a call that returns
    gives a stipple grid of the shape of the importance grid with every cell
    0.0 or 1.0, and samples that are cells of the grid, each recorded with the
    importance at its location; the cells holding 0.0 are the sample
    locations. *)
Theorem samples_are_grid_cells `{NumPy} (g0 g : rng_state)
        (importance stipple_grid : ndarray)
        (percentage sigma content_bias noise_scale_factor : float)
        (seed : option Z) (sample_sequence : list sample) :
  shape_ok importance ->
  void_and_cluster g0 importance percentage sigma content_bias
                   noise_scale_factor seed
  = Ok (stipple_grid, sample_sequence, g) ->
  shaped (nrows importance) (ncols importance) stipple_grid
  /\ Forall (fun v => v = Float.zero \/ v = Float.one) (cells stipple_grid)
  /\ Forall (fun s => fst (fst s) < nrows importance
                      /\ snd (fst s) < ncols importance
                      /\ snd s = get importance (fst (fst s)) (snd (fst s)))
            sample_sequence
  /\ forall y x, y < nrows importance -> x < ncols importance ->
       (get stipple_grid y x = Float.zero
        <-> In (y, x) (locations sample_sequence)).
Proof.
  intros Hshape E. unfold void_and_cluster in E.
  destruct (num_points (nrows importance) (ncols importance) percentage)
    as [N|]; [|discriminate].
  destruct (repulsion_kernel sigma) as [K|]; [|discriminate].
  cbn [bind] in E.
  destruct (for_range (iteration importance K noise_scale_factor N) 0
              (Z.to_nat N)
              (initial_state (seeded g0 seed) importance content_bias))
    as [st|] eqn:Erun; [|discriminate].
  cbn [bind] in E. injection E as <- <- <-.
  pose proof (for_range_invariant
                (iteration importance K noise_scale_factor N)
                (fun j s =>
                   well_shaped (nrows importance) (ncols importance) j s
                   /\ marks_are_samples (nrows importance) (ncols importance) s
                   /\ Forall (fun s => snd s = get importance (fst (fst s))
                                                  (snd (fst s))) (samples s))
                (Z.to_nat N) 0
                (initial_state (seeded g0 seed) importance content_bias) st)
    as Hinv.
  destruct Hinv with (3 := Erun) as (Hw & Hm & Hr).
  - intros j s1 s2 _ (Hw1 & Hm1 & Hr1) E1. split; [|split].
    + eapply iteration_well_shaped; eauto.
    + eapply iteration_marks; eauto.
    + eapply iteration_recorded; eauto. apply Hw1.
  - split; [|split].
    + now apply initial_well_shaped.
    + now apply initial_marks.
    + constructor.
  - destruct Hw as (_ & Hs & _ & Hg).
    split; [exact Hs|]. split.
    { now apply (marks_two_valued (nrows importance) (ncols importance)). }
    split.
    + unfold locations in Hg. rewrite Forall_map in Hg.
      rewrite Forall_forall in *. intros s Hs'.
      destruct (Hg s Hs') as [Hy Hx]. repeat split; auto.
    + intros y x Hy Hx.
      now apply (mark_iff_sample (nrows importance) (ncols importance)).
Qed.

Lemma call_with_two_points_returns :
  returned (@void_and_cluster Reference.numpy 0%Z Reference.importance4
              (Fin (1 # 8)) (Fin (9 # 10)) (Fin (9 # 10)) (Fin (1 # 10))
              (Some 0%Z))
  = true.
Proof. vm_compute. reflexivity. Qed.

Lemma samples_are_grid_cells_witness :
  exists stipple_grid sample_sequence,
    outputs (@void_and_cluster Reference.numpy 0%Z Reference.importance4
               (Fin (1 # 8)) (Fin (9 # 10)) (Fin (9 # 10)) (Fin (1 # 10))
               (Some 0%Z))
    = Ok (stipple_grid, sample_sequence)
    /\ Forall (fun s => fst (fst s) < 4 /\ snd (fst s) < 4
                        /\ snd s = get Reference.importance4 (fst (fst s))
                                       (snd (fst s)))
              sample_sequence.
Proof.
  pose proof call_with_two_points_returns as Hret.
  destruct (@void_and_cluster Reference.numpy 0%Z Reference.importance4
              (Fin (1 # 8)) (Fin (9 # 10)) (Fin (9 # 10)) (Fin (1 # 10))
              (Some 0%Z)) as [[[st ss] g]|e] eqn:E.
  - exists st, ss. split; [reflexivity|].
    exact (proj1 (proj2 (proj2
      (@samples_are_grid_cells Reference.numpy 0%Z g Reference.importance4 st
         (Fin (1 # 8)) (Fin (9 # 10)) (Fin (9 # 10)) (Fin (1 # 10))
         (Some 0%Z) ss ReferenceFacts.importance4_shape E)))).
  - discriminate Hret.
Defined.

(** ** The first sample *)

Section Window.

Lemma nth_rows (f : nat -> nat -> float) xs : forall ys i j,
  i < length ys -> j < length xs ->
  nth (i * length xs + j) (flat_map (fun y => map (f y) xs) ys) NaN
  = f (nth i ys 0) (nth j xs 0).
Proof.
  induction ys as [|y ys IH]; intros i j Hi Hj; simpl in *; [lia|].
  destruct i as [|i].
  - simpl. rewrite app_nth1 by now rewrite length_map.
    rewrite (nth_indep _ NaN (f y 0)) by now rewrite length_map.
    apply map_nth.
  - rewrite app_nth2 by (rewrite length_map; simpl; lia).
    rewrite length_map.
    replace (S i * length xs + j - length xs) with (i * length xs + j)
      by (simpl; lia).
    apply IH; lia.
Qed.

Lemma slice_nth a y0 y1 x0 x1 ly lx :
  ly < y1 - y0 -> lx < x1 - x0 ->
  nth (ly * (x1 - x0) + lx) (cells (slice a y0 y1 x0 x1)) NaN
  = get a (y0 + ly) (x0 + lx).
Proof.
  intros Hy Hx. unfold slice. cbn [cells].
  pose proof (nth_rows (fun y x => get a y x) (seq x0 (x1 - x0))
                (seq y0 (y1 - y0)) ly lx) as E.
  rewrite !length_seq in E. rewrite E by assumption.
  now rewrite !seq_nth by assumption.
Qed.

Lemma window_to_nat (n k : nat) :
  k <= n ->
  Z.to_nat (Z.max 0 (Z.of_nat n / 2 - Z.of_nat k / 4)) = n / 2 - k / 4
  /\ Z.to_nat (Z.min (Z.of_nat n) (Z.of_nat n / 2 + Z.of_nat k / 4))
     = n / 2 + k / 4.
Proof.
  intros Hk.
  change 2%Z with (Z.of_nat 2). change 4%Z with (Z.of_nat 4).
  rewrite <- !Nat2Z.inj_div.
  pose proof (Nat.div_mod_eq n 2). pose proof (Nat.mod_upper_bound n 2).
  pose proof (Nat.div_mod_eq k 4). pose proof (Nat.mod_upper_bound k 4).
  remember (n / 2) as c. remember (k / 4) as r. lia.
Qed.

(** The first point is in the window around the centre, its energy is least
    there, and it is the first such cell of the window in row-major order. *)
Lemma first_point_least e y x :
  shape_ok e -> no_nan (cells e) -> first_point e = Ok (y, x) ->
  let r := Nat.min (nrows e) (ncols e) / 4 in
  (nrows e / 2 - r <= y < nrows e / 2 + r)
  /\ (ncols e / 2 - r <= x < ncols e / 2 + r)
  /\ forall y' x',
       nrows e / 2 - r <= y' < nrows e / 2 + r ->
       ncols e / 2 - r <= x' < ncols e / 2 + r ->
       Float.leb (get e y x) (get e y' x') = true
       /\ (y' < y \/ (y' = y /\ x' < x) ->
           Float.ltb (get e y x) (get e y' x') = true).
Proof.
  intros Hs Hn E r. unfold first_point in E.
  rewrite <- Nat2Z.inj_min in E.
  destruct (window_to_nat (nrows e) (Nat.min (nrows e) (ncols e)))
    as [Ey0 Ey1]; [lia|].
  destruct (window_to_nat (ncols e) (Nat.min (nrows e) (ncols e)))
    as [Ex0 Ex1]; [lia|].
  rewrite Ey0, Ey1, Ex0, Ex1 in E. fold r in E.
  assert (Hr : 4 * r <= Nat.min (nrows e) (ncols e)).
  { subst r. pose proof (Nat.div_mod_eq (Nat.min (nrows e) (ncols e)) 4). lia. }
  assert (Hy1 : nrows e / 2 + r <= nrows e).
  { pose proof (Nat.div_mod_eq (nrows e) 2). lia. }
  assert (Hx1 : ncols e / 2 + r <= ncols e).
  { pose proof (Nat.div_mod_eq (ncols e) 2). lia. }
  set (y0 := nrows e / 2 - r) in *. set (y1 := nrows e / 2 + r) in *.
  set (x0 := ncols e / 2 - r) in *. set (x1 := ncols e / 2 + r) in *.
  clearbody y0 y1 x0 x1. clear Ey0 Ey1 Ex0 Ex1 Hr. clearbody r.
  destruct (argmin (slice e y0 y1 x0 x1)) as [j|] eqn:Ej; [|discriminate].
  cbn [bind] in E. unfold unravel_index, shape in E.
  cbn [fst snd nrows ncols slice] in E. injection E as <- <-.
  assert (Hsn : no_nan (cells (slice e y0 y1 x0 x1))).
  { unfold no_nan, slice. cbn [cells]. rewrite Forall_forall. intros v Hv.
    apply in_flat_map in Hv. destruct Hv as (y' & Hy' & Hv).
    apply in_map_iff in Hv. destruct Hv as (x' & <- & Hx').
    apply in_seq in Hy'. apply in_seq in Hx'.
    unfold no_nan in Hn. rewrite Forall_forall in Hn. apply Hn.
    unfold get, flat_index. apply nth_In. rewrite Hs.
    apply flat_lt; lia. }
  destruct (argmin_first_least _ j Hsn Ej) as (Hj & Hleast & Hfirst).
  pose proof (slice_shape_ok e y0 y1 x0 x1) as Hss. unfold shape_ok in Hss.
  cbn [nrows ncols slice] in Hss. rewrite Hss in Hj, Hleast.
  destruct (unravel_lt _ _ Hj) as [Hly Hlx].
  assert (Hsel : nth j (cells (slice e y0 y1 x0 x1)) NaN
                 = get e (y0 + j / (x1 - x0)) (x0 + j mod (x1 - x0))).
  { rewrite <- (slice_nth e y0 y1 x0 x1) by assumption.
    now rewrite flat_unravel. }
  split; [lia|]. split; [lia|].
  intros y' x' Hy' Hx'.
  assert (Hk : (y' - y0) * (x1 - x0) + (x' - x0) < (y1 - y0) * (x1 - x0))
    by (apply flat_lt; lia).
  assert (Hcell : nth ((y' - y0) * (x1 - x0) + (x' - x0))
                      (cells (slice e y0 y1 x0 x1)) NaN = get e y' x').
  { rewrite slice_nth by lia. f_equal; lia. }
  rewrite <- Hsel, <- Hcell. split.
  - now apply Hleast.
  - intros Hbefore. apply Hfirst.
    pose proof (flat_unravel (x1 - x0) j) as Hj'.
    remember (j / (x1 - x0)) as ly. remember (j mod (x1 - x0)) as lx.
    destruct Hbefore as [Hlt | [-> Hlt]]; nia.
Qed.

End Window.

Section FirstSample.
Context {np : NumPy}.
Variables (importance K : ndarray) (nsf : float) (N : Z).

(** The first recorded sample is the point [first_point] finds in the
    initial energy. *)
Lemma first_sample_selected g cb n st' y x v :
  shape_ok importance ->
  for_range (iteration importance K nsf N) 0 n (initial_state g importance cb)
  = Ok st' ->
  hd_error (samples st') = Some (y, x, v) ->
  first_point (energy (initial_state g importance cb)) = Ok (y, x)
  /\ v = get importance y x.
Proof.
  intros Hs E Hhd. destruct n as [|n]; simpl in E.
  - injection E as <-. discriminate Hhd.
  - destruct (iteration importance K nsf N 0 (initial_state g importance cb))
      as [s1|] eqn:E1; simpl in E; [|discriminate].
    assert (Hw0 : well_shaped (nrows importance) (ncols importance) 0
                    (initial_state g importance cb))
      by now apply initial_well_shaped.
    pose proof (iteration_well_shaped importance K nsf N 0 _ s1 Hw0 E1) as Hw1.
    destruct (iteration_inv importance K nsf N 0 _ s1 E1)
      as (y1 & x1 & g1 & [Hfp _] & Hs1).
    destruct (for_range_extends importance K nsf N n 1 s1 st' Hw1 E)
      as (more & Hm & _).
    rewrite Hm, Hs1 in Hhd. simpl in Hhd. injection Hhd as <- <- <-. auto.
Qed.

Lemma initial_energy_get g (b : Q) y x q :
  shape_ok importance -> y < nrows importance -> x < ncols importance ->
  get importance y x = Fin q ->
  get (energy (initial_state g importance (Fin b))) y x = Fin (- q * b).
Proof.
  intros Hs Hy Hx Hq. unfold initial_state, get, flat_index, map_array in *.
  cbn [energy cells ncols] in *.
  rewrite nth_map_float by (rewrite Hs; apply flat_lt; lia).
  now rewrite Hq.
Qed.

Lemma initial_energy_no_nan g (b : Q) :
  all_finite importance ->
  no_nan (cells (energy (initial_state g importance (Fin b)))).
Proof.
  unfold all_finite, no_nan, initial_state, map_array. cbn [energy cells].
  intros Hf. rewrite Forall_map. revert Hf. apply Forall_impl.
  intros [q| | |]; try discriminate. reflexivity.
Qed.

Lemma finite_cell y x :
  shape_ok importance -> all_finite importance ->
  y < nrows importance -> x < ncols importance ->
  exists q, get importance y x = Fin q.
Proof.
  intros Hs Hf Hy Hx. unfold all_finite in Hf. rewrite Forall_forall in Hf.
  assert (Hin : In (get importance y x) (cells importance)).
  { unfold get, flat_index. apply nth_In. rewrite Hs. apply flat_lt; lia. }
  apply Hf in Hin. destruct (get importance y x) as [q| | |];
    try discriminate. eauto.
Qed.

End FirstSample.

(** X4 (void_and_cluster, lines 112-120).  With a positive content bias and
    a finite importance grid, the first sample of a call lies in the window
    of radius min(H, W) // 4 around the centre of the grid, no cell of the
    window is more important, and every cell of the window before it in
    row-major order is strictly less important. *)
Theorem first_sample_is_central_maximum `{NumPy} (g0 g : rng_state)
        (importance stipple_grid : ndarray)
        (percentage sigma noise_scale_factor : float) (content_bias : Q)
        (seed : option Z) (sample_sequence : list sample)
        (y x : nat) (v : float) :
  shape_ok importance -> all_finite importance -> (0 < content_bias)%Q ->
  void_and_cluster g0 importance percentage sigma (Fin content_bias)
                   noise_scale_factor seed
  = Ok (stipple_grid, sample_sequence, g) ->
  hd_error sample_sequence = Some (y, x, v) ->
  let r := Nat.min (nrows importance) (ncols importance) / 4 in
  (nrows importance / 2 - r <= y < nrows importance / 2 + r)
  /\ (ncols importance / 2 - r <= x < ncols importance / 2 + r)
  /\ v = get importance y x
  /\ forall y' x',
       nrows importance / 2 - r <= y' < nrows importance / 2 + r ->
       ncols importance / 2 - r <= x' < ncols importance / 2 + r ->
       Float.leb (get importance y' x') (get importance y x) = true
       /\ (y' < y \/ (y' = y /\ x' < x) ->
           Float.ltb (get importance y' x') (get importance y x) = true).
Proof.
  intros Hs Hf Hb E Hhd r. unfold void_and_cluster in E.
  destruct (num_points (nrows importance) (ncols importance) percentage)
    as [N|]; [|discriminate].
  destruct (repulsion_kernel sigma) as [K|]; [|discriminate].
  cbn [bind] in E.
  destruct (for_range (iteration importance K noise_scale_factor N) 0
              (Z.to_nat N)
              (initial_state (seeded g0 seed) importance (Fin content_bias)))
    as [st|] eqn:Erun; [|discriminate].
  cbn [bind] in E. injection E as <- <- <-.
  destruct (first_sample_selected importance K noise_scale_factor N
              (seeded g0 seed) (Fin content_bias) (Z.to_nat N) st y x v
              Hs Erun Hhd) as [Hfp ->].
  pose proof (initial_energy_no_nan importance (seeded g0 seed) content_bias Hf)
    as Hnn.
  assert (Hse : shape_ok (energy (initial_state (seeded g0 seed) importance
                                                (Fin content_bias)))).
  { unfold shape_ok, initial_state, map_array. cbn [energy cells nrows ncols].
    now rewrite length_map. }
  set (e0 := energy (initial_state (seeded g0 seed) importance
                                   (Fin content_bias))) in *.
  destruct (first_point_least e0 y x Hse Hnn Hfp) as (Hy & Hx & Hleast).
  change (nrows e0) with (nrows importance) in Hy, Hx, Hleast.
  change (ncols e0) with (ncols importance) in Hy, Hx, Hleast.
  fold r in Hy, Hx, Hleast.
  assert (Hr : 4 * r <= Nat.min (nrows importance) (ncols importance)).
  { subst r.
    pose proof (Nat.div_mod_eq (Nat.min (nrows importance) (ncols importance)) 4).
    lia. }
  assert (Hy1 : nrows importance / 2 + r <= nrows importance).
  { pose proof (Nat.div_mod_eq (nrows importance) 2). lia. }
  assert (Hx1 : ncols importance / 2 + r <= ncols importance).
  { pose proof (Nat.div_mod_eq (ncols importance) 2). lia. }
  clearbody r.
  split; [exact Hy|]. split; [exact Hx|]. split; [reflexivity|].
  intros y' x' Hy' Hx'.
  destruct (finite_cell importance y x Hs Hf) as [q Hq]; [lia|lia|].
  destruct (finite_cell importance y' x' Hs Hf) as [q' Hq']; [lia|lia|].
  destruct (Hleast y' x' Hy' Hx') as [Hle Hlt].
  unfold e0 in Hle, Hlt.
  rewrite (initial_energy_get importance (seeded g0 seed) content_bias y x q)
    in Hle, Hlt by (auto; lia).
  rewrite (initial_energy_get importance (seeded g0 seed) content_bias y' x' q')
    in Hle, Hlt by (auto; lia).
  rewrite Hq, Hq'. rewrite leb_fin in *. rewrite ltb_fin in *. split.
  - nra.
  - intros Hbefore. specialize (Hlt Hbefore). nra.
Qed.

Lemma call_with_two_points_has_first :
  match @void_and_cluster Reference.numpy 0%Z Reference.importance4
          (Fin (1 # 8)) (Fin (9 # 10)) (Fin (9 # 10)) (Fin (1 # 10))
          (Some 0%Z)
  with
  | Ok (_, _ :: _, _) => true
  | _ => false
  end = true.
Proof. vm_compute. reflexivity. Qed.

Lemma first_sample_is_central_maximum_witness :
  exists stipple_grid y x v rest,
    outputs (@void_and_cluster Reference.numpy 0%Z Reference.importance4
               (Fin (1 # 8)) (Fin (9 # 10)) (Fin (9 # 10)) (Fin (1 # 10))
               (Some 0%Z))
    = Ok (stipple_grid, (y, x, v) :: rest)
    /\ 1 <= y < 3 /\ 1 <= x < 3.
Proof.
  pose proof call_with_two_points_has_first as Hret.
  destruct (@void_and_cluster Reference.numpy 0%Z Reference.importance4
              (Fin (1 # 8)) (Fin (9 # 10)) (Fin (9 # 10)) (Fin (1 # 10))
              (Some 0%Z)) as [[[st [|[[y x] v] ss]] g]|e] eqn:E;
    try discriminate Hret.
  exists st, y, x, v, ss. split; [reflexivity|].
  pose proof (@first_sample_is_central_maximum Reference.numpy 0%Z g
                Reference.importance4 st (Fin (1 # 8)) (Fin (9 # 10))
                (Fin (1 # 10)) (9 # 10) (Some 0%Z) ((y, x, v) :: ss) y x v
                ReferenceFacts.importance4_shape
                ReferenceFacts.importance4_finite eq_refl E eq_refl)
    as (Hy & Hx & _).
  split; [exact Hy | exact Hx].
Defined.
